(** * The token table of [src/components/AxiomTradeTable.tsx]

    A shallow embedding of the logic of the table: the mock feed
    ([mockTokens], the one-second update of [useRealtimeTokens]), the sort
    state and comparator of [useTokenDiscovery], the tab filter, the tab
    counts and the body of [App], and what [TableRow] and [TableHead] compute
    (price colour, percentage, launch time, current column).

    Modelling choices.
    - A JavaScript [number] is a rational ([Q]) and the arithmetic of the
      source is kept term for term. Where a statement depends on the digits
      the machine computes (the bounds of the perturbation), every operation
      is followed by the rounding to the nearest binary64 number
      ([round64], [tick64]); elsewhere the operations are exact ([tick]),
      which the statements there do not depend on.
    - [Math.random] and [Date.now] are oracles: the k-th call of a session
      returns [random k], resp. [clock k]; the number of calls made so far is
      part of the state threaded through the code.
    - [Record<string, PriceState>] is a [gmap string PriceState.t].
    - [String.prototype.localeCompare] is a function of the host; the
      comparator takes it as a parameter. So are [Number.prototype.toFixed]
      and the printing of a number in a template literal.
    - A division by zero is written out: it yields an infinity or NaN.
    - [Array.prototype.sort] is a stable sort (ECMAScript 2019); it is
      modelled by a stable insertion sort. *)

From Stdlib Require Import QArith Qabs Qround Qpower Lqa.
From Stdlib Require OrderedTypeEx.
From stdpp Require Import base list strings gmap pretty sorting.

(** ** 1. Types *)

Inductive Chain := ETH | BSC | SOL.
Inductive Status := NewPairs | FinalStretch | Migrated.
Inductive Trend := up | down | neutral.
Inductive Direction := asc | desc.

#[global] Instance Chain_eq_dec : EqDecision Chain.
Proof. solve_decision. Defined.
#[global] Instance Status_eq_dec : EqDecision Status.
Proof. solve_decision. Defined.
#[global] Instance Trend_eq_dec : EqDecision Trend.
Proof. solve_decision. Defined.
#[global] Instance Direction_eq_dec : EqDecision Direction.
Proof. solve_decision. Defined.

(** The string literals behind the two union types. *)
Definition chainLabel (c : Chain) : string :=
  match c with ETH => "ETH" | BSC => "BSC" | SOL => "SOL" end.

Definition statusLabel (s : Status) : string :=
  match s with
  | NewPairs => "New pairs"
  | FinalStretch => "Final Stretch"
  | Migrated => "Migrated"
  end.

Module Token.
Record t := mk {
  id : string;
  name : string;
  symbol : string;
  chain : Chain;
  pair : string;
  status : Status;
  marketCap : Q;
  priceUSD : Q;
  volume24h : Q;
  liquidity : Q;
  launchTime : Q;
  score : Q
  }.
End Token.

Module PriceState.
Record t := mk { priceUSD : Q; trend : Trend }.
End PriceState.

(** [keyof Token]. *)
Inductive Key :=
  | Kid | Kname | Ksymbol | Kchain | Kpair | Kstatus
  | KmarketCap | KpriceUSD | Kvolume24h | Kliquidity | KlaunchTime | Kscore.

#[global] Instance Key_eq_dec : EqDecision Key.
Proof. solve_decision. Defined.

Module SortState.
Record t := mk { key : option Key; direction : Direction }.
End SortState.

(** The values a token property can hold, and what [tokens[0]?.[key]] yields
    on an empty array. *)
Inductive Value := VNum (q : Q) | VStr (s : string) | VUndefined.

Inductive TypeTag := TNumber | TString | TUndefined.

#[global] Instance TypeTag_eq_dec : EqDecision TypeTag.
Proof. solve_decision. Defined.

Definition typeof (v : Value) : TypeTag :=
  match v with VNum _ => TNumber | VStr _ => TString | VUndefined => TUndefined end.

(** [token[key]] *)
Definition get (key : Key) (token : Token.t) : Value :=
  match key with
  | Kid => VStr (Token.id token)
  | Kname => VStr (Token.name token)
  | Ksymbol => VStr (Token.symbol token)
  | Kchain => VStr (chainLabel (Token.chain token))
  | Kpair => VStr (Token.pair token)
  | Kstatus => VStr (statusLabel (Token.status token))
  | KmarketCap => VNum (Token.marketCap token)
  | KpriceUSD => VNum (Token.priceUSD token)
  | Kvolume24h => VNum (Token.volume24h token)
  | Kliquidity => VNum (Token.liquidity token)
  | KlaunchTime => VNum (Token.launchTime token)
  | Kscore => VNum (Token.score token)
  end.

(** The active tab of [App]: ['All'] or one of the three stages. *)
Inductive Tab := TabAll | TabStatus (s : Status).

#[global] Instance Tab_eq_dec : EqDecision Tab.
Proof. solve_decision. Defined.

Definition tabLabel (tab : Tab) : string :=
  match tab with TabAll => "All" | TabStatus s => statusLabel s end.

(** ** 2. The state threaded through the feed *)

(** [draws] counts the calls of [Math.random], [reads] those of [Date.now];
    [history] is the [priceHistory] state of [useRealtimeTokens]. *)
Record Env := mkEnv {
  draws : nat;
  reads : nat;
  history : gmap string PriceState.t
}.

Definition M (A : Type) : Type := Env -> A * Env.

Definition ret {A} (a : A) : M A := fun e => (a, e).

Definition bind {A B} (c : M A) (k : A -> M B) : M B :=
  fun e => let '(a, e') := c e in k a e'.

Declare Scope feed_scope.
Delimit Scope feed_scope with feed.
Notation "x <- c ;; k" := (bind c (fun x => k))
  (at level 100, c at next level, right associativity) : feed_scope.
Notation "c ;;; k" := (bind c (fun _ => k))
  (at level 100, right associativity) : feed_scope.

(** [array.map(f)] for an effectful [f]: the elements are visited from left
    to right. *)
Fixpoint mapM {A B} (f : A -> M B) (l : list A) : M (list B) :=
  match l with
  | [] => ret []
  | a :: l' => (b <- f a ;; bs <- mapM f l' ;; ret (b :: bs))%feed
  end.

(** [setPriceHistory(updater)]: React applies the queued updaters in the
    order of the calls. *)
Definition setPriceHistory
    (f : gmap string PriceState.t -> gmap string PriceState.t) : M unit :=
  fun e => (tt, mkEnv (draws e) (reads e) (f (history e))).

Section Feed.
Variable random : nat -> Q.
Variable clock : nat -> Q.

Definition mathRandom : M Q :=
  fun e => (random (draws e), mkEnv (S (draws e)) (reads e) (history e)).

Definition dateNow : M Q :=
  fun e => (clock (reads e), mkEnv (draws e) (S (reads e)) (history e)).

Local Open Scope Q_scope.
Local Open Scope feed_scope.

Definition ofNat (n : nat) : Q := inject_Z (Z.of_nat n).

(** *** Mock data generation (lines 82-95) *)

Definition mockToken (i : nat) : M Token.t :=
  r1 <- mathRandom ;;
  now <- dateNow ;;
  r2 <- mathRandom ;;
  r3 <- mathRandom ;;
  ret {|
    Token.id := "token-" +:+ pretty i;
    Token.name := "Axiom Token " +:+ pretty (i + 1)%nat;
    Token.symbol := "AXM" +:+ pretty (i + 1)%nat;
    Token.chain := if decide (i mod 3 = 0)%nat then ETH
                   else if decide (i mod 3 = 1)%nat then BSC else SOL;
    Token.pair := "WETH/AXM" +:+ pretty (i + 1)%nat;
    Token.status := if decide (i < 5)%nat then NewPairs
                    else if decide (i < 10)%nat then FinalStretch else Migrated;
    Token.marketCap := 1000000 + ofNat i * 500000;
    Token.priceUSD := 0.05 + r1 * 1.5;
    Token.volume24h := 100000 + ofNat i * 20000;
    Token.liquidity := 50000 + ofNat i * 10000;
    Token.launchTime := now - (ofNat i + 1) * 3600000 * r2;
    Token.score := inject_Z (Qfloor (r3 * 100))
  |}.

Definition mockTokens : M (list Token.t) := mapM mockToken (seq 0 15).

(** *** The one-second update (lines 135-159) *)

Definition classify (newPrice oldPrice : Q) : Trend :=
  if Qlt_le_dec oldPrice newPrice then up
  else if Qlt_le_dec newPrice oldPrice then down
  else neutral.

Definition updateToken (token : Token.t) : M Token.t :=
  r1 <- mathRandom ;;
  let newPrice := Token.priceUSD token * (1 + (r1 - 0.5) * 0.02) in
  let trend := classify newPrice (Token.priceUSD token) in
  setPriceHistory (fun prev =>
    <[Token.id token := PriceState.mk (Token.priceUSD token) trend]> prev) ;;;
  r2 <- mathRandom ;;
  ret {|
    Token.id := Token.id token;
    Token.name := Token.name token;
    Token.symbol := Token.symbol token;
    Token.chain := Token.chain token;
    Token.pair := Token.pair token;
    Token.status := Token.status token;
    Token.marketCap := Token.marketCap token;
    Token.priceUSD := newPrice;
    Token.volume24h := Token.volume24h token * (1 + (r2 - 0.5) * 0.05);
    Token.liquidity := Token.liquidity token;
    Token.launchTime := Token.launchTime token;
    Token.score := Token.score token
  |}.

(** The body of the interval callback: [data.map(...)], whose result is
    handed to [setData]. *)
Definition tick (data : list Token.t) : M (list Token.t) :=
  mapM updateToken data.
End Feed.

(** ** 3. The state of [useRealtimeTokens] *)

(** [data], [loading] and [error]; [priceHistory] is [history] of [Env]. *)
Module Hook.
Record t := mk { data : list Token.t; loading : bool; error : option string }.

(** The values given to [useState]. *)
Definition initial : t := {| data := []; loading := true; error := None |}.
End Hook.

(** The callback of [initialLoadTimer]; [mock] is the module constant
    [mockTokens], computed when the module was loaded. *)
Definition initialLoad (mock : list Token.t) : M Hook.t :=
  (setPriceHistory (fun _ =>
     foldl (fun initialHistory token =>
              <[Token.id token := PriceState.mk (Token.priceUSD token) neutral]>
                initialHistory) ∅ mock) ;;;
   ret {| Hook.data := mock; Hook.loading := false; Hook.error := None |})%feed.

(** One period of [wsMockInterval]. The effect returns before creating the
    interval when [loading || data.length === 0]; otherwise the callback runs
    [tick] and hands its result to [setData]. *)
Definition wsMockInterval (random : nat -> Q) (st : Hook.t) : M Hook.t :=
  if Hook.loading st || bool_decide (length (Hook.data st) = 0%nat) then ret st
  else (updatedData <- tick random (Hook.data st) ;;
        ret {| Hook.data := updatedData;
               Hook.loading := Hook.loading st;
               Hook.error := Hook.error st |})%feed.

(** The states [useRealtimeTokens] goes through: the mount, the callback of
    the load timer, and the periods of the interval. The module constant
    [mockTokens] was computed from some earlier environment [e0]. *)
Inductive reachable (random clock : nat -> Q) : Hook.t -> Env -> Prop :=
  | reachable_mount e :
      history e = ∅ -> reachable random clock Hook.initial e
  | reachable_load st e e0 :
      reachable random clock st e ->
      reachable random clock
        (initialLoad (mockTokens random clock e0).1 e).1
        (initialLoad (mockTokens random clock e0).1 e).2
  | reachable_period st e :
      reachable random clock st e ->
      reachable random clock
        (wsMockInterval random st e).1 (wsMockInterval random st e).2.

(** ** 4. [useTokenDiscovery] *)

Definition initialSortState : SortState.t :=
  {| SortState.key := Some KmarketCap; SortState.direction := desc |}.

(** [tokens[0]?.[key]] *)
Definition firstValue (tokens : list Token.t) (key : Key) : Value :=
  match tokens !! 0%nat with
  | Some token => get key token
  | None => VUndefined
  end.

(** [handleSort(key)] applied to the previous sort state (lines 173-187). *)
Definition handleSort (tokens : list Token.t) (key : Key) (prev : SortState.t)
    : SortState.t :=
  if decide (SortState.key prev = Some key) then
    {| SortState.key := Some key;
       SortState.direction :=
         if decide (SortState.direction prev = asc) then desc else asc |}
  else
    {| SortState.key := Some key;
       SortState.direction :=
         if bool_decide (typeof (firstValue tokens key) = TString)
            || bool_decide (key = Kstatus)
         then asc else desc |}.

(** [order.indexOf(v)]: strict equality, [-1] when absent. *)
Definition indexOf (order : list string) (v : Value) : Z :=
  match v with
  | VStr s =>
      match list_find (fun s' => s' = s) order with
      | Some (i, _) => Z.of_nat i
      | None => (-1)%Z
      end
  | _ => (-1)%Z
  end.

(** [array.sort(cmp)]: [a] goes after [b] exactly when [cmp a b > 0]; ties
    keep the order of the input. *)
Fixpoint sortInsert {A} (cmp : A -> A -> Q) (a : A) (l : list A) : list A :=
  match l with
  | [] => [a]
  | b :: l' =>
      if Qlt_le_dec 0 (cmp a b) then b :: sortInsert cmp a l' else a :: b :: l'
  end.

Fixpoint arraySort {A} (cmp : A -> A -> Q) (l : list A) : list A :=
  match l with
  | [] => []
  | a :: l' => sortInsert cmp a (arraySort cmp l')
  end.

Section Discovery.
Variable localeCompare : string -> string -> Q.

Local Open Scope Q_scope.

(** The comparator handed to [sort] (lines 194-211). *)
Definition compareTokens (key : Key) (direction : Direction) (a b : Token.t) : Q :=
  let aVal := get key a in
  let bVal := get key b in
  let comparison :=
    match aVal, bVal with
    | VNum x, VNum y => x - y
    | VStr x, VStr y => localeCompare x y
    | _, _ =>
        if decide (key = Kstatus) then
          let order := ["New pairs"; "Final Stretch"; "Migrated"]%string in
          inject_Z (indexOf order aVal - indexOf order bVal)
        else 0
    end in
  if decide (direction = asc) then comparison else - comparison.

(** [sortedTokens] (lines 189-212). *)
Definition sortedTokens (tokens : list Token.t) (sortState : SortState.t)
    : list Token.t :=
  match SortState.key sortState with
  | None => tokens
  | Some key => arraySort (compareTokens key (SortState.direction sortState)) tokens
  end.
End Discovery.

(** ** 5. The tab filter of [App] (lines 616-619) *)

Definition filteredTokens (activeTab : Tab) (sortedTokens : list Token.t)
    : list Token.t :=
  if decide (activeTab = TabAll) then sortedTokens
  else filter (fun token => statusLabel (Token.status token) = tabLabel activeTab)
         sortedTokens.

(** A collation used to run the comparator on examples: strings are compared
    by the codes of their characters. On the three stage labels, which differ
    in their first letter (F, M, N), it gives the verdict of any alphabetical
    collation. *)
Definition codeCompare (x y : string) : Q :=
  match String.compare x y with
  | Lt => (-1)%Q
  | Eq => 0%Q
  | Gt => 1%Q
  end.


(** ** 6. What [updateToken] computes *)

Section Update.
Local Open Scope Q_scope.

(** The record [updateToken] returns when its two draws are [r1] and [r2]. *)
Definition perturb (token : Token.t) (r1 r2 : Q) : Token.t :=
  {| Token.id := Token.id token;
     Token.name := Token.name token;
     Token.symbol := Token.symbol token;
     Token.chain := Token.chain token;
     Token.pair := Token.pair token;
     Token.status := Token.status token;
     Token.marketCap := Token.marketCap token;
     Token.priceUSD := Token.priceUSD token * (1 + (r1 - 0.5) * 0.02);
     Token.volume24h := Token.volume24h token * (1 + (r2 - 0.5) * 0.05);
     Token.liquidity := Token.liquidity token;
     Token.launchTime := Token.launchTime token;
     Token.score := Token.score token |}.

(** The observation [updateToken] writes for [token] when its first draw is
    [r1]. *)
Definition observe (token : Token.t) (r1 : Q) : PriceState.t :=
  PriceState.mk (Token.priceUSD token)
    (classify (Token.priceUSD token * (1 + (r1 - 0.5) * 0.02))
              (Token.priceUSD token)).

(** The environment [updateToken] leaves behind when its first draw is [r1]:
    two more draws made, one observation written. *)
Definition updateEnv (token : Token.t) (r1 : Q) (e : Env) : Env :=
  mkEnv (S (S (draws e))) (reads e)
    (<[Token.id token := observe token r1]> (history e)).
End Update.

(** ** 7. Sample data *)

Section Samples.
Local Open Scope Q_scope.

Definition sampleToken (id : string) (status : Status) (priceUSD : Q) : Token.t :=
  {| Token.id := id;
     Token.name := "Sample " +:+ id;
     Token.symbol := "SMP";
     Token.chain := SOL;
     Token.pair := "WETH/SMP";
     Token.status := status;
     Token.marketCap := 1000000;
     Token.priceUSD := priceUSD;
     Token.volume24h := 100000;
     Token.liquidity := 50000;
     Token.launchTime := 1700000000000;
     Token.score := 42 |}.

(** Draws 0, 1, 1/2, then 3/4 for ever. *)
Definition sampleRandom (k : nat) : Q :=
  match k with
  | O => 0
  | 1%nat => 1
  | 2%nat => 0.5
  | _ => 0.75
  end.

Definition sampleClock (k : nat) : Q := 1700000000000 + ofNat k.

Definition emptyEnv : Env := mkEnv 0 0 ∅.
End Samples.

(** ** 8. Vocabulary of the statements *)

(** The stages in the order of their declaration in [Token['status']], which
    is also the order of the array [order] of the comparator. *)
Definition stageSequence : list Status := [NewPairs; FinalStretch; Migrated].

(** The keys whose property is a [number] in the declaration of [Token]; the
    others are strings. *)
Definition keyIsNumeric (key : Key) : bool :=
  match key with
  | KmarketCap | KpriceUSD | Kvolume24h | Kliquidity | KlaunchTime | Kscore => true
  | Kid | Kname | Ksymbol | Kchain | Kpair | Kstatus => false
  end.

Definition flipDirection (d : Direction) : Direction :=
  match d with asc => desc | desc => asc end.

(** ** 9. Rendering: [TableRow], [TableHead] and the body of [App] *)

(** The two entries of [COLOR] that [TableRow] uses for the trend. *)
Definition GREEN_TREND : string := "text-[#48ef7a]".
Definition RED_TREND : string := "text-[#ff4757]".

(** [priceHistory[token.id] || { priceUSD: token.priceUSD, trend: 'neutral' }]
    (line 725). A stored observation is an object, hence truthy; the map holds
    the own properties of [priceHistory]. *)
Definition rowPriceState (priceHistory : gmap string PriceState.t)
    (token : Token.t) : PriceState.t :=
  match priceHistory !! Token.id token with
  | Some priceState => priceState
  | None => PriceState.mk (Token.priceUSD token) neutral
  end.

(** [priceColorClass] (lines 388-392). *)
Definition priceColorClass (priceState : PriceState.t) : string :=
  if decide (PriceState.trend priceState = up) then
    GREEN_TREND +:+ " bg-green-900/20"
  else if decide (PriceState.trend priceState = down) then
    RED_TREND +:+ " bg-red-900/20"
  else "text-white bg-transparent".

(** The result of a division: the quotient of two rationals, or one of the
    three special values a division by zero yields. *)
Inductive Number := Finite (q : Q) | PosInfinity | NegInfinity | NaN.

Section RowArithmetic.
Local Open Scope Q_scope.

(** [x / y]; the zero of a price is [+0]. *)
Definition divide (x y : Q) : Number :=
  if Qeq_dec y 0 then
    if Qlt_le_dec 0 x then PosInfinity
    else if Qlt_le_dec x 0 then NegInfinity
    else NaN
  else Finite (x / y).

(** [n * 100] *)
Definition times100 (n : Number) : Number :=
  match n with
  | Finite q => Finite (q * 100)
  | PosInfinity => PosInfinity
  | NegInfinity => NegInfinity
  | NaN => NaN
  end.

Definition isNaN (n : Number) : bool :=
  match n with NaN => true | _ => false end.

(** [n > 0] *)
Definition isPositive (n : Number) : bool :=
  match n with
  | Finite q => if Qlt_le_dec 0 q then true else false
  | PosInfinity => true
  | NegInfinity | NaN => false
  end.

(** [priceDiff] (line 395). *)
Definition priceDiff (token : Token.t) (priceState : PriceState.t) : Number :=
  times100
    (divide (Token.priceUSD token - PriceState.priceUSD priceState)
            (PriceState.priceUSD priceState)).
End RowArithmetic.

Section RowText.
(** [Number.prototype.toFixed] and the conversion of a number to a string in
    a template literal are functions of the host. *)
Variable toFixed : Number -> nat -> string.
Variable numberToString : Q -> string.
Variable clock : nat -> Q.

Local Open Scope Q_scope.

(** [priceDiffText] (lines 396-398). *)
Definition priceDiffText (token : Token.t) (priceState : PriceState.t) : string :=
  if isNaN (priceDiff token priceState)
     || bool_decide (PriceState.trend priceState = neutral)
  then ""
  else (if isPositive (priceDiff token priceState) then "+" else "")
       +:+ toFixed (priceDiff token priceState) 2 +:+ "%".

End RowText.

(** [tokenCounts] (lines 635-641) and the count a tab shows,
    [tokenCounts[label] || 0] (lines 677-680). *)
Definition countToken (counts : gmap string nat) (token : Token.t)
    : gmap string nat :=
  <[statusLabel (Token.status token) :=
      (default 0 (counts !! statusLabel (Token.status token)) + 1)%nat]> counts.

Definition tokenCounts (tokens : list Token.t) : gmap string nat :=
  foldl countToken {["All" := length tokens]} tokens.

Definition tabCount (counts : gmap string nat) (tab : Tab) : nat :=
  default 0%nat (counts !! tabLabel tab).

(** What [App] puts in the body of the table (lines 704-729): the skeleton
    while loading, the empty-state message, or one row per filtered token with
    its price state. *)
Inductive Body :=
  | Skeleton
  | EmptyState (activeTab : Tab)
  | DataRows (rows : list (Token.t * PriceState.t)).

Definition tableBody (loading : bool) (activeTab : Tab)
    (filteredTokens : list Token.t) (priceHistory : gmap string PriceState.t)
    : Body :=
  if loading then Skeleton
  else if bool_decide (length filteredTokens = 0%nat) then EmptyState activeTab
  else DataRows ((fun token => (token, rowPriceState priceHistory token))
                   <$> filteredTokens).

(** What [App] returns: the error screen when [error] is truthy, that is a
    non-empty string (lines 648-657), else the table, whose body shows the
    sorted and filtered tokens. *)
Inductive Screen := ErrorScreen (message : string) | Table (body : Body).

Definition truthy (error : option string) : bool :=
  match error with
  | Some message => negb (bool_decide (message = ""))
  | None => false
  end.

Definition App (localeCompare : string -> string -> Q) (st : Hook.t)
    (priceHistory : gmap string PriceState.t) (sortState : SortState.t)
    (activeTab : Tab) : Screen :=
  if truthy (Hook.error st) then ErrorScreen (default "" (Hook.error st))
  else
    Table (tableBody (Hook.loading st) activeTab
             (filteredTokens activeTab
                (sortedTokens localeCompare (Hook.data st) sortState))
             priceHistory).

(** A loaded state of the hook and the state one period later, on the sample
    oracles. *)
Definition sampleLoaded : Hook.t * Env :=
  initialLoad (mockTokens sampleRandom sampleClock emptyEnv).1
              (mockTokens sampleRandom sampleClock emptyEnv).2.

Definition sampleTicked : Hook.t * Env :=
  wsMockInterval sampleRandom sampleLoaded.1 sampleLoaded.2.

(** The columns of the header (lines 62-79). [mobileHidden] is optional: an
    absent field reads as false. *)
Inductive Align := AlignLeft | AlignRight | AlignCenter.

Module Column.
Record t := mk {
  key : Key;
  label : string;
  sortable : bool;
  align : Align;
  mobileHidden : bool
}.
End Column.

Definition tokenColumns : list Column.t :=
  [ Column.mk Kname "Token" true AlignLeft false;
    Column.mk Kstatus "Stage" true AlignCenter true;
    Column.mk KpriceUSD "Price (USD)" true AlignRight false;
    Column.mk KmarketCap "M. Cap" true AlignRight false;
    Column.mk Kvolume24h "Volume (24h)" true AlignRight true;
    Column.mk Kliquidity "Liquidity" true AlignRight true;
    Column.mk KlaunchTime "Launch" true AlignCenter false;
    Column.mk Kscore "Score" true AlignCenter false ].

(** [isCurrent] of [TableHead] (line 530). *)
Definition isCurrent (sortState : SortState.t) (col : Column.t) : bool :=
  bool_decide (SortState.key sortState = Some (Column.key col)).

(** The [onClick] of a header cell (line 536): [col.sortable &&
    handleSort(col.key)], seen as the change of the sort state. *)
Definition clickHeader (tokens : list Token.t) (col : Column.t)
    (prev : SortState.t) : SortState.t :=
  if Column.sortable col then handleSort tokens (Column.key col) prev else prev.

(** The sort state after a series of clicks, each on a column and with the
    token list of its moment. *)
Definition afterClicks (clicks : list (list Token.t * Column.t)) : SortState.t :=
  foldl (fun sortState click => clickHeader click.1 click.2 sortState)
        initialSortState clicks.

(** The ids of the mock list. *)
Definition mockIds : list string := (fun i => "token-" +:+ pretty i) <$> seq 0 15.

(** What the data model asks of a record: positive price and volume, market
    capitalisation and liquidity at least those of token-0, and a whole score
    between 0 and 100. *)
Definition wellFormed (token : Token.t) : Prop :=
  (0 < Token.priceUSD token /\
   0 < Token.volume24h token /\
   1000000 <= Token.marketCap token /\
   50000 <= Token.liquidity token /\
   exists z : Z, Token.score token = inject_Z z /\ (0 <= z <= 100)%Z)%Q.

(** The first record of the sample loaded state. *)
Definition sampleFirst : Token.t :=
  (mockToken sampleRandom sampleClock 0 emptyEnv).1.

(** The number a record holds under a numeric key. *)
Definition numericValue (key : Key) (token : Token.t) : Q :=
  match get key token with
  | VNum q => q
  | _ => 0%Q
  end.

#[global] Instance Qeq_decision (x y : Q) : Decision (x == y)%Q := Qeq_dec x y.

(** The step of the loop of [initialLoad] that builds [initialHistory]. *)
Definition recordInitial (initialHistory : gmap string PriceState.t)
    (token : Token.t) : gmap string PriceState.t :=
  <[Token.id token := PriceState.mk (Token.priceUSD token) neutral]>
    initialHistory.

(** ** 10. The arithmetic of the machine

    A JavaScript number is a binary64 floating-point number, and every
    operation gives the double nearest to its exact result, ties to the even
    mantissa. [round64] is that rounding on the rationals: the doubles are
    its values. The exponent is not bounded: a result beyond the largest
    double (an infinity in the code) or below the smallest normal double (a
    subnormal in the code) is outside of what it models. *)

Section Binary64.
Local Open Scope Q_scope.

(** The exponent of a positive rational: [2 ^ ilog2 x <= x < 2 ^ (ilog2 x + 1)]. *)
Definition ilog2 (x : Q) : Z :=
  let e0 := (Z.log2 (Qnum x) - Z.log2 (Zpos (Qden x)))%Z in
  if Qlt_le_dec x (2 ^ e0) then (e0 - 1)%Z else e0.

(** The nearest integer, ties to the even one. *)
Definition roundHalfEven (q : Q) : Z :=
  let f := Qfloor q in
  let r := q - inject_Z f in
  if Qlt_le_dec r (1 # 2) then f
  else if Qlt_le_dec (1 # 2) r then (f + 1)%Z
  else if Z.even f then f else (f + 1)%Z.

(** A positive rational rounded to 53 significant bits. *)
Definition roundPos (x : Q) : Q :=
  let e := ilog2 x in
  inject_Z (roundHalfEven (x * 2 ^ (52 - e))) * 2 ^ (e - 52).

Definition round64 (x : Q) : Q :=
  if Qlt_le_dec 0 x then roundPos x
  else if Qlt_le_dec x 0 then - roundPos (- x)
  else 0.
End Binary64.

(** Lines 136-155 with the arithmetic made explicit: [fl] rounds every
    decimal literal that is not a double and the result of every operation,
    in the order the expression is evaluated. With no rounding this is
    [updateToken], with [round64] it is what the machine computes. *)
Section Machine.
Variable fl : Q -> Q.
Variable random : nat -> Q.
Local Open Scope Q_scope.
Local Open Scope feed_scope.

Definition updateTokenWith (token : Token.t) : M Token.t :=
  r1 <- mathRandom random ;;
  let newPrice :=
    fl (Token.priceUSD token * fl (1 + fl (fl (r1 - 0.5) * fl 0.02))) in
  let trend := classify newPrice (Token.priceUSD token) in
  setPriceHistory (fun prev =>
    <[Token.id token := PriceState.mk (Token.priceUSD token) trend]> prev) ;;;
  r2 <- mathRandom random ;;
  ret {|
    Token.id := Token.id token;
    Token.name := Token.name token;
    Token.symbol := Token.symbol token;
    Token.chain := Token.chain token;
    Token.pair := Token.pair token;
    Token.status := Token.status token;
    Token.marketCap := Token.marketCap token;
    Token.priceUSD := newPrice;
    Token.volume24h :=
      fl (Token.volume24h token * fl (1 + fl (fl (r2 - 0.5) * fl 0.05)));
    Token.liquidity := Token.liquidity token;
    Token.launchTime := Token.launchTime token;
    Token.score := Token.score token
  |}.

Definition tickWith (data : list Token.t) : M (list Token.t) :=
  mapM updateTokenWith data.

(** The record [updateTokenWith] returns when its two draws are [r1], [r2]. *)
Definition perturbWith (token : Token.t) (r1 r2 : Q) : Token.t :=
  {| Token.id := Token.id token;
     Token.name := Token.name token;
     Token.symbol := Token.symbol token;
     Token.chain := Token.chain token;
     Token.pair := Token.pair token;
     Token.status := Token.status token;
     Token.marketCap := Token.marketCap token;
     Token.priceUSD :=
       fl (Token.priceUSD token * fl (1 + fl (fl (r1 - 0.5) * fl 0.02)));
     Token.volume24h :=
       fl (Token.volume24h token * fl (1 + fl (fl (r2 - 0.5) * fl 0.05)));
     Token.liquidity := Token.liquidity token;
     Token.launchTime := Token.launchTime token;
     Token.score := Token.score token |}.
End Machine.

(** The tick of the machine. *)
Definition tick64 (random : nat -> Q) (data : list Token.t) : M (list Token.t) :=
  tickWith round64 random data.

Section Factors.
Local Open Scope Q_scope.

(** The multipliers of the machine for a draw [r]:
    [1 + (r - 0.5) * 0.02] and [1 + (r - 0.5) * 0.05]. *)
Definition priceFactor64 (r : Q) : Q :=
  round64 (1 + round64 (round64 (r - 0.5) * round64 0.02)).

Definition volumeFactor64 (r : Q) : Q :=
  round64 (1 + round64 (round64 (r - 0.5) * round64 0.05)).

(** [2 ^ -53], the largest relative error of one rounding, and [2 ^ -52],
    the distance from 1 to the next double. *)
Definition halfUlp : Q := 1 # 9007199254740992.
Definition ulp : Q := 1 # 4503599627370496.

(** Zero, or a magnitude from [2 ^ -1021] to [2 ^ 1023]: a number whose
    product with a multiplier between 1/2 and 2 is a normal double, neither
    an infinity nor a subnormal, so that [round64] is the rounding of the
    machine on it. *)
Definition inRange64 (x : Q) : Prop :=
  x == 0 \/ (2 ^ (-1021) <= Qabs x /\ Qabs x <= 2 ^ 1023).
End Factors.

(** * Properties *)

(** ** The trend classification *)

Section Classify.
Local Open Scope Q_scope.

Lemma classify_up newPrice oldPrice :
  oldPrice < newPrice -> classify newPrice oldPrice = up.
Proof.
  intros H. unfold classify.
  destruct (Qlt_le_dec oldPrice newPrice); [reflexivity | lra].
Qed.

Lemma classify_down newPrice oldPrice :
  newPrice < oldPrice -> classify newPrice oldPrice = down.
Proof.
  intros H. unfold classify.
  destruct (Qlt_le_dec oldPrice newPrice); [lra|].
  destruct (Qlt_le_dec newPrice oldPrice); [reflexivity | lra].
Qed.

Lemma classify_neutral newPrice oldPrice :
  newPrice == oldPrice -> classify newPrice oldPrice = neutral.
Proof.
  intros H. unfold classify.
  destruct (Qlt_le_dec oldPrice newPrice); [lra|].
  destruct (Qlt_le_dec newPrice oldPrice); [lra | reflexivity].
Qed.
End Classify.

(** ** How [tick] runs *)

Section TickFacts.
Variable random : nat -> Q.

Abbreviation after token e := (updateEnv token (random (draws e)) e).

Lemma updateToken_run token e :
  updateToken random token e =
    (perturb token (random (draws e)) (random (S (draws e))), after token e).
Proof. reflexivity. Qed.

Lemma tick_nil e : tick random [] e = ([], e).
Proof. reflexivity. Qed.

Lemma tick_cons token data e :
  tick random (token :: data) e =
    let '(token', e1) := updateToken random token e in
    let '(data', e2) := tick random data e1 in
    (token' :: data', e2).
Proof. reflexivity. Qed.

(** One step of every induction below: the head is updated, the tail is
    ticked in the environment the head left. *)
Ltac tick_step IH token e :=
  rewrite tick_cons, updateToken_run;
  try specialize (IH (after token e));
  destruct (tick random _ (after token e)) as [data' e2];
  unfold updateEnv in *; simpl in *.

Lemma tick_draws data e :
  draws (tick random data e).2 = (draws e + 2 * length data)%nat.
Proof.
  revert e; induction data as [|token data IH]; intros e.
  - rewrite tick_nil; simpl; lia.
  - tick_step IH token e. lia.
Qed.

Lemma tick_reads data e : reads (tick random data e).2 = reads e.
Proof.
  revert e; induction data as [|token data IH]; intros e; [reflexivity|].
  tick_step IH token e. exact IH.
Qed.

Lemma tick_length data e : length (tick random data e).1 = length data.
Proof.
  revert e; induction data as [|token data IH]; intros e; [reflexivity|].
  tick_step IH token e. by rewrite IH.
Qed.

(** The i-th record of the result is the i-th record of the input, perturbed
    with the draws number [2 i] and [2 i + 1] of this tick. *)
Lemma tick_lookup data e i token :
  data !! i = Some token ->
  (tick random data e).1 !! i =
    Some (perturb token (random (draws e + 2 * i)%nat)
                        (random (draws e + 2 * i + 1)%nat)).
Proof.
  revert e i; induction data as [|a data IH]; intros e i Hi; [done|].
  destruct i as [|i]; simpl in Hi.
  - injection Hi as ->. tick_step IH token e. do 3 f_equal; lia.
  - specialize (IH (after a e) i Hi). tick_step IH a e.
    rewrite IH. do 3 f_equal; lia.
Qed.

(** Ids that do not occur in the list keep their observation. *)
Lemma tick_history_other data e k :
  k ∉ Token.id <$> data ->
  history (tick random data e).2 !! k = history e !! k.
Proof.
  revert e; induction data as [|a data IH]; intros e Hk; [done|].
  rewrite fmap_cons, not_elem_of_cons in Hk. destruct Hk as [Hne Hk].
  specialize (IH (after a e) Hk). tick_step IH a e.
  rewrite IH. by rewrite lookup_insert_ne.
Qed.

(** The last record carrying an id decides the observation of that id. *)
Lemma tick_history_last data e i token :
  data !! i = Some token ->
  (forall j other, (i < j)%nat -> data !! j = Some other ->
                   Token.id other <> Token.id token) ->
  history (tick random data e).2 !! Token.id token =
    Some (observe token (random (draws e + 2 * i)%nat)).
Proof.
  revert e i; induction data as [|a data IH]; intros e i Hi Hlast; [done|].
  destruct i as [|i]; simpl in Hi.
  - injection Hi as ->.
    pose proof (tick_history_other data (after token e) (Token.id token)) as Ho.
    tick_step IH token e. rewrite Ho.
    + rewrite lookup_insert_eq. do 3 f_equal; lia.
    + intros (other & Heq & Hin)%list_elem_of_fmap.
      apply list_elem_of_lookup in Hin as [j Hj].
      apply (Hlast (S j) other); [lia|done|done].
  - specialize (IH (after a e) i Hi). tick_step IH a e.
    rewrite IH.
    + do 3 f_equal; lia.
    + intros j other Hj Hlk. apply (Hlast (S j) other); [lia|done].
Qed.
End TickFacts.

(** ** The mock list *)

Lemma mockTokens_statuses random clock e :
  Token.status <$> (mockTokens random clock e).1 =
    replicate 5 NewPairs ++ replicate 5 FinalStretch ++ replicate 5 Migrated.
Proof. vm_compute. reflexivity. Qed.

Lemma mockTokens_chains random clock e :
  Token.chain <$> (mockTokens random clock e).1 =
    [ETH; BSC; SOL; ETH; BSC; SOL; ETH; BSC; SOL; ETH; BSC; SOL; ETH; BSC; SOL].
Proof. vm_compute. reflexivity. Qed.

Lemma mockTokens_ids random clock e :
  Token.id <$> (mockTokens random clock e).1 =
    (fun i => "token-" +:+ pretty i) <$> seq 0 15.
Proof. vm_compute. reflexivity. Qed.

(** C3, as amended. The list has fifteen records and the stage is assigned in
    three consecutive blocks of five: the record at index [i] has the stage at
    position [i / 5] of the stage sequence. *)
Theorem mockTokens_stage_blocks random clock e (i : nat) :
  i < 15 ->
  length (mockTokens random clock e).1 = 15 /\
  Token.status <$> ((mockTokens random clock e).1 !! i) = stageSequence !! (i / 5).
Proof.
  intros Hi. split.
  { rewrite <- (length_fmap Token.status), mockTokens_statuses. reflexivity. }
  rewrite <- list_lookup_fmap, mockTokens_statuses.
  do 15 (destruct i as [|i]; [reflexivity|]). lia.
Qed.

Lemma mockTokens_stage_blocks_witness :
  7 < 15 /\
  length (mockTokens sampleRandom sampleClock emptyEnv).1 = 15 /\
  Token.status <$> ((mockTokens sampleRandom sampleClock emptyEnv).1 !! 7)
    = stageSequence !! (7 / 5).
Proof.
  split; [lia|]. apply (mockTokens_stage_blocks sampleRandom sampleClock emptyEnv 7). lia.
Defined.

(** The record at index 1 has the stage of the record at index 0,
    'New pairs', not the stage at position [1 mod 3] of the sequence: the
    stages do not cycle. *)
Lemma mockTokens_not_round_robin :
  Token.status <$> ((mockTokens sampleRandom sampleClock emptyEnv).1 !! 1)
    = Some NewPairs /\
  Token.status <$> ((mockTokens sampleRandom sampleClock emptyEnv).1 !! 0)
    = Some NewPairs /\
  stageSequence !! (1 mod 3) = Some FinalStretch /\
  Token.status <$> ((mockTokens sampleRandom sampleClock emptyEnv).1 !! 1)
    <> stageSequence !! (1 mod 3).
Proof.
  rewrite <- !list_lookup_fmap, mockTokens_statuses.
  repeat split; discriminate.
Qed.

(** ** The feed: what one tick does *)

Section TickClaims.
Local Open Scope Q_scope.

(** C9. For every token list, [tick] keeps the length of the list and the ids
    of its records (as a list, hence as a multiset), and the record at each
    position keeps its id, name, symbol, chain, pair, status, marketCap,
    liquidity, launchTime and score: only priceUSD and volume24h change. *)
Theorem tick_frame (random : nat -> Q) (data : list Token.t) (e : Env) :
  length (tick random data e).1 = length data /\
  Token.id <$> (tick random data e).1 = Token.id <$> data /\
  (Token.id <$> (tick random data e).1) ≡ₚ (Token.id <$> data) /\
  Forall2 (fun token token' =>
             Token.id token' = Token.id token /\
             Token.name token' = Token.name token /\
             Token.symbol token' = Token.symbol token /\
             Token.chain token' = Token.chain token /\
             Token.pair token' = Token.pair token /\
             Token.status token' = Token.status token /\
             Token.marketCap token' = Token.marketCap token /\
             Token.liquidity token' = Token.liquidity token /\
             Token.launchTime token' = Token.launchTime token /\
             Token.score token' = Token.score token)
          data (tick random data e).1.
Proof.
  assert (Hframe : Forall2 (fun token token' =>
             Token.id token' = Token.id token /\
             Token.name token' = Token.name token /\
             Token.symbol token' = Token.symbol token /\
             Token.chain token' = Token.chain token /\
             Token.pair token' = Token.pair token /\
             Token.status token' = Token.status token /\
             Token.marketCap token' = Token.marketCap token /\
             Token.liquidity token' = Token.liquidity token /\
             Token.launchTime token' = Token.launchTime token /\
             Token.score token' = Token.score token)
          data (tick random data e).1).
  { apply Forall2_same_length_lookup_2; [by rewrite tick_length|].
    intros i token token' Hi Hi'.
    rewrite (tick_lookup random data e i token Hi) in Hi'.
    injection Hi' as <-. repeat split. }
  assert (Hids : Token.id <$> (tick random data e).1 = Token.id <$> data).
  { induction Hframe as [|token token' l l' (Hid & _) _ IH]; [done|].
    by rewrite !fmap_cons, IH, Hid. }
  repeat split; [apply tick_length | done | by rewrite Hids | done].
Qed.

Lemma initialLoad_data mock e : Hook.data (initialLoad mock e).1 = mock.
Proof. reflexivity. Qed.

(** While [data] is empty no observation has been recorded: the list is
    empty only before the load, and the load installs fifteen records that
    no period removes. *)
Lemma reachable_empty_history random clock st e :
  reachable random clock st e -> Hook.data st = [] -> history e = ∅.
Proof.
  induction 1 as [e He|st e e0 _ _|st e Hreach IH]; intros Hempty.
  - exact He.
  - rewrite initialLoad_data in Hempty.
    apply (f_equal (fmap Token.status)) in Hempty.
    rewrite mockTokens_statuses in Hempty. discriminate Hempty.
  - unfold wsMockInterval in *.
    destruct (Hook.loading st || bool_decide (length (Hook.data st) = 0%nat))
      eqn:Hguard; [by apply IH|].
    apply orb_false_iff in Hguard as [_ Hlen%bool_decide_eq_false].
    unfold bind in Hempty.
    pose proof (tick_length random (Hook.data st) e) as Hl.
    destruct (tick random (Hook.data st) e) as [updatedData e']; simpl in *.
    subst updatedData. simpl in Hl. by rewrite <- Hl in Hlen.
Qed.

(** C8. On the empty list nothing happens. The effect of [useRealtimeTokens]
    does not start the interval while [data] is empty, so a period leaves the
    whole state as it is; the callback itself, run on the empty list, returns
    the empty list, makes no draw and records no observation; and in every
    state the hook can reach with an empty list the observation map is empty,
    before and after the period. The functions are total: there is no error
    to raise. *)
Theorem tick_empty_noop (random : nat -> Q) :
  (forall loading error e,
     wsMockInterval random (Hook.mk [] loading error) e =
       (Hook.mk [] loading error, e)) /\
  (forall e, tick random [] e = ([], e)) /\
  (forall n m, (tick random [] (mkEnv n m ∅)).1 = [] /\
               history (tick random [] (mkEnv n m ∅)).2 = ∅) /\
  (forall clock st e,
     reachable random clock st e -> Hook.data st = [] ->
     Hook.data (wsMockInterval random st e).1 = [] /\
     history (wsMockInterval random st e).2 = ∅).
Proof.
  assert (Hskip : forall loading error e,
     wsMockInterval random (Hook.mk [] loading error) e =
       (Hook.mk [] loading error, e)).
  { intros loading error e. unfold wsMockInterval; simpl.
    by rewrite orb_true_r. }
  split; [exact Hskip|]. split; [apply tick_nil|]. split.
  - intros n m. by rewrite tick_nil.
  - intros clock st e Hreach Hempty.
    pose proof (reachable_empty_history random clock st e Hreach Hempty) as Hh.
    destruct st as [data loading error]; simpl in Hempty; subst data.
    by rewrite Hskip.
Qed.

(** The observation of an id is that of the last record carrying it: for a
    record that no later record of the list shares its id with, after one
    tick the observation stored under the id holds the price the record had
    before the tick, and the trend of the move to its new price. *)
Lemma tick_observation (random : nat -> Q) (data : list Token.t) (e : Env)
    (i : nat) (token : Token.t) :
  data !! i = Some token ->
  (forall j other, (i < j)%nat -> data !! j = Some other ->
                   Token.id other <> Token.id token) ->
  exists token' observation,
    (tick random data e).1 !! i = Some token' /\
    history (tick random data e).2 !! Token.id token = Some observation /\
    PriceState.priceUSD observation = Token.priceUSD token /\
    (Token.priceUSD token < Token.priceUSD token' ->
       PriceState.trend observation = up) /\
    (Token.priceUSD token' < Token.priceUSD token ->
       PriceState.trend observation = down) /\
    (Token.priceUSD token' == Token.priceUSD token ->
       PriceState.trend observation = neutral).
Proof.
  intros Hi Hlast.
  exists (perturb token (random (draws e + 2 * i)%nat)
                        (random (draws e + 2 * i + 1)%nat)),
         (observe token (random (draws e + 2 * i)%nat)).
  split; [by apply tick_lookup|].
  split; [by apply tick_history_last|].
  split; [reflexivity|]. simpl.
  split; [apply classify_up | split; [apply classify_down | apply classify_neutral]].
Qed.

(** C2. For every list of token records (their ids pairwise distinct, as
    the data model has them) and every record in it, after one tick the
    observation stored under the record's id holds exactly the price the
    record had before the tick, and the trend is [up] if the new price is
    greater than the old one, [down] if it is smaller, and [neutral] if the
    two are equal. *)
Theorem tick_records_previous_price (random : nat -> Q) (data : list Token.t)
    (e : Env) (i : nat) (token : Token.t) :
  NoDup (Token.id <$> data) ->
  data !! i = Some token ->
  exists token' observation,
    (tick random data e).1 !! i = Some token' /\
    history (tick random data e).2 !! Token.id token = Some observation /\
    PriceState.priceUSD observation = Token.priceUSD token /\
    (Token.priceUSD token < Token.priceUSD token' ->
       PriceState.trend observation = up) /\
    (Token.priceUSD token' < Token.priceUSD token ->
       PriceState.trend observation = down) /\
    (Token.priceUSD token' == Token.priceUSD token ->
       PriceState.trend observation = neutral).
Proof.
  intros Hnodup Hi. apply tick_observation; [exact Hi|].
  intros j other Hj Hother Heq.
  assert (i = j); [|lia].
  eapply (NoDup_lookup (Token.id <$> data)); [exact Hnodup|..];
    rewrite list_lookup_fmap.
  - by rewrite Hi.
  - rewrite Hother. simpl. by rewrite Heq.
Qed.

Lemma tick_records_previous_price_witness :
  NoDup (Token.id <$> [sampleToken "a" NewPairs 2; sampleToken "b" Migrated 3]) /\
  [sampleToken "a" NewPairs 2; sampleToken "b" Migrated 3] !! 0%nat
    = Some (sampleToken "a" NewPairs 2) /\
  exists token' observation,
    (tick sampleRandom [sampleToken "a" NewPairs 2; sampleToken "b" Migrated 3]
       emptyEnv).1 !! 0%nat = Some token' /\
    history (tick sampleRandom
               [sampleToken "a" NewPairs 2; sampleToken "b" Migrated 3]
               emptyEnv).2 !! Token.id (sampleToken "a" NewPairs 2)
      = Some observation /\
    PriceState.priceUSD observation = Token.priceUSD (sampleToken "a" NewPairs 2) /\
    (Token.priceUSD (sampleToken "a" NewPairs 2) < Token.priceUSD token' ->
       PriceState.trend observation = up) /\
    (Token.priceUSD token' < Token.priceUSD (sampleToken "a" NewPairs 2) ->
       PriceState.trend observation = down) /\
    (Token.priceUSD token' == Token.priceUSD (sampleToken "a" NewPairs 2) ->
       PriceState.trend observation = neutral).
Proof.
  assert (Hnodup : NoDup (Token.id <$>
            [sampleToken "a" NewPairs 2; sampleToken "b" Migrated 3])).
  { apply (bool_decide_unpack _). vm_compute. exact I. }
  split; [exact Hnodup|]. split; [reflexivity|].
  apply (tick_records_previous_price sampleRandom
           [sampleToken "a" NewPairs 2; sampleToken "b" Migrated 3] emptyEnv 0
           (sampleToken "a" NewPairs 2) Hnodup).
  reflexivity.
Defined.
End TickClaims.

(** ** The sort state *)

Lemma handleSort_same_key tokens key direction :
  handleSort tokens key (SortState.mk (Some key) direction) =
    SortState.mk (Some key) (flipDirection direction).
Proof.
  unfold handleSort; simpl. rewrite decide_True by done.
  by destruct direction.
Qed.

Lemma typeof_get key token :
  typeof (get key token) = if keyIsNumeric key then TNumber else TString.
Proof. by destruct key. Qed.

(** X18. With a first record to look at, a new key gets the default of its type. *)
Lemma handleSort_new_key tokens token key prev :
  tokens !! 0 = Some token ->
  SortState.key prev <> Some key ->
  handleSort tokens key prev =
    SortState.mk (Some key) (if keyIsNumeric key then desc else asc).
Proof.
  intros Hfirst Hnew. unfold handleSort, firstValue.
  rewrite decide_False by done. rewrite Hfirst, typeof_get.
  by destruct key.
Qed.

(** On the empty list [tokens[0]?.[key]] is [undefined], and only the test
    [key === 'status'] can give ascending. *)
Lemma handleSort_new_key_empty key prev :
  SortState.key prev <> Some key ->
  handleSort [] key prev =
    SortState.mk (Some key) (if decide (key = Kstatus) then asc else desc).
Proof.
  intros Hnew. unfold handleSort, firstValue.
  rewrite decide_False by done. simpl. by destruct key.
Qed.

(** C4, at the input where the code departs from it. While the list is still
    empty (the header is rendered during the initial load), clicking the
    textual column [name] from the initial sort state gives descending, where
    the claim, and the comment of the source, say ascending. *)
Theorem handleSort_empty_textual :
  handleSort [] Kname initialSortState = SortState.mk (Some Kname) desc /\
  keyIsNumeric Kname = false /\
  SortState.key initialSortState <> Some Kname.
Proof. split; [reflexivity|]. split; [reflexivity|]. discriminate. Qed.

(** ** Sorting *)

(** C10. For every token list and either direction, when the sort key is
    none ([null]) [sortedTokens] is the input list itself, in its order. *)
Theorem sortedTokens_no_key (localeCompare : string -> string -> Q)
    (tokens : list Token.t) (sortState : SortState.t) :
  SortState.key sortState = None ->
  sortedTokens localeCompare tokens sortState = tokens.
Proof.
  intros Hnone. unfold sortedTokens. rewrite Hnone. reflexivity.
Qed.

Lemma sortedTokens_no_key_witness :
  SortState.key (SortState.mk None desc) = None /\
  sortedTokens codeCompare
    [sampleToken "b" Migrated 3; sampleToken "a" NewPairs 2]
    (SortState.mk None desc)
  = [sampleToken "b" Migrated 3; sampleToken "a" NewPairs 2].
Proof.
  split; [reflexivity|].
  apply (sortedTokens_no_key codeCompare
           [sampleToken "b" Migrated 3; sampleToken "a" NewPairs 2]
           (SortState.mk None desc)).
  reflexivity.
Defined.

Section ArraySort.
Context {A : Type} (cmp : A -> A -> Q).
Local Open Scope Q_scope.

Lemma sortInsert_perm a l : sortInsert cmp a l ≡ₚ a :: l.
Proof.
  induction l as [|b l IH]; simpl; [done|].
  destruct (Qlt_le_dec 0 (cmp a b)); [|done].
  rewrite IH. apply Permutation_swap.
Qed.

Lemma arraySort_perm l : arraySort cmp l ≡ₚ l.
Proof.
  induction l as [|a l IH]; simpl; [done|].
  by rewrite sortInsert_perm, IH.
Qed.

Lemma arraySort_length l : length (arraySort cmp l) = length l.
Proof. by rewrite arraySort_perm. Qed.

(** Ties keep the order of the input: when no element has to go after
    another, the list comes back as it was. *)
Lemma arraySort_ties l :
  (forall a b, cmp a b <= 0) -> arraySort cmp l = l.
Proof.
  intros Hties. induction l as [|a l IH]; simpl; [done|].
  rewrite IH. destruct l as [|b l]; simpl; [done|].
  destruct (Qlt_le_dec 0 (cmp a b)) as [Hgt|_]; [|done].
  specialize (Hties a b). lra.
Qed.

(** For a comparator that is consistent (its sign is antisymmetric and "not
    after" is transitive) the result is ordered: no element is followed,
    however far, by one it must go after. *)
Hypothesis cmp_antisym : forall a b, 0 < cmp a b -> cmp b a <= 0.
Hypothesis cmp_trans : forall a b c, cmp a b <= 0 -> cmp b c <= 0 -> cmp a c <= 0.

Lemma sortInsert_sorted a l :
  StronglySorted (fun x y => cmp x y <= 0) l ->
  StronglySorted (fun x y => cmp x y <= 0) (sortInsert cmp a l).
Proof.
  induction 1 as [|b l Hl IH Hb]; simpl.
  - repeat constructor.
  - destruct (Qlt_le_dec 0 (cmp a b)) as [Hgt|Hle].
    + constructor; [exact IH|].
      rewrite sortInsert_perm. constructor; [by apply cmp_antisym | exact Hb].
    + constructor; [by constructor|].
      constructor; [exact Hle|].
      eapply Forall_impl; [exact Hb|]. intros c Hc. by eapply cmp_trans.
Qed.

Lemma arraySort_sorted l :
  StronglySorted (fun x y => cmp x y <= 0) (arraySort cmp l).
Proof.
  induction l as [|a l IH]; simpl; [constructor | by apply sortInsert_sorted].
Qed.
End ArraySort.

Section StatusSort.
Variable localeCompare : string -> string -> Q.
Local Open Scope Q_scope.

(** Both values of the key [status] are strings, so the comparator takes the
    [localeCompare] branch; the branch with the rank order is never reached. *)
Lemma compareTokens_status direction a b :
  compareTokens localeCompare Kstatus direction a b =
    if decide (direction = asc)
    then localeCompare (statusLabel (Token.status a)) (statusLabel (Token.status b))
    else - localeCompare (statusLabel (Token.status a)) (statusLabel (Token.status b)).
Proof. reflexivity. Qed.

(** C1, at the input where the code departs from it. Under any collation that
    puts the label "New pairs" after "Final Stretch" (N after F), sorting a
    'New pairs' record followed by a 'Final Stretch' record by [status],
    ascending, returns the 'Final Stretch' record first. *)
Theorem sortedTokens_status_by_label (a b : Token.t) :
  Token.status a = NewPairs ->
  Token.status b = FinalStretch ->
  0 < localeCompare "New pairs" "Final Stretch" ->
  sortedTokens localeCompare [a; b] (SortState.mk (Some Kstatus) asc) = [b; a].
Proof.
  intros Ha Hb Hlabels. unfold sortedTokens; simpl.
  rewrite compareTokens_status, Ha, Hb; simpl.
  destruct (Qlt_le_dec 0 (localeCompare "New pairs" "Final Stretch")); [done | lra].
Qed.
End StatusSort.

Lemma sortedTokens_status_by_label_witness :
  Token.status (sampleToken "a" NewPairs 2) = NewPairs /\
  Token.status (sampleToken "b" FinalStretch 3) = FinalStretch /\
  (0 < codeCompare "New pairs" "Final Stretch")%Q /\
  sortedTokens codeCompare
    [sampleToken "a" NewPairs 2; sampleToken "b" FinalStretch 3]
    (SortState.mk (Some Kstatus) asc)
  = [sampleToken "b" FinalStretch 3; sampleToken "a" NewPairs 2].
Proof.
  split; [reflexivity|]. split; [reflexivity|]. split; [reflexivity|].
  apply (sortedTokens_status_by_label codeCompare
           (sampleToken "a" NewPairs 2) (sampleToken "b" FinalStretch 3));
    reflexivity.
Defined.

(** The whole mock list, sorted by [status] ascending under [codeCompare]:
    'Final Stretch', then 'Migrated', then 'New pairs'. *)
Example sortedTokens_status_mock :
  Token.status <$>
    sortedTokens codeCompare (mockTokens sampleRandom sampleClock emptyEnv).1
      (SortState.mk (Some Kstatus) asc)
  = replicate 5 FinalStretch ++ replicate 5 Migrated ++ replicate 5 NewPairs.
Proof. vm_compute. reflexivity. Qed.

(** A numeric key, descending: prices 2, 3, 1 come out as 3, 2, 1. *)
Example sortedTokens_price_desc :
  Token.id <$>
    sortedTokens codeCompare
      [sampleToken "a" NewPairs 2;
       sampleToken "b" FinalStretch 3;
       sampleToken "c" Migrated 1]
      (SortState.mk (Some KpriceUSD) desc)
  = ["b"; "a"; "c"].
Proof. vm_compute. reflexivity. Qed.

(** ** The tab filter *)

Lemma statusLabel_inj s1 s2 : statusLabel s1 = statusLabel s2 -> s1 = s2.
Proof. by destruct s1, s2. Qed.

(** A stage tab keeps the records of that stage. *)
Lemma filteredTokens_stage stage tokens :
  filteredTokens (TabStatus stage) tokens =
    filter (fun token => Token.status token = stage) tokens.
Proof.
  unfold filteredTokens. rewrite decide_False by done. simpl.
  apply list_filter_iff. intros token.
  split; [apply statusLabel_inj | by intros ->].
Qed.

(** Among the sublists of [l] made of elements that satisfy [P], [filter P l]
    is the greatest. *)
Lemma sublist_filter_greatest {A} (P : A -> Prop) `{!forall x, Decision (P x)}
    (k l : list A) :
  k `sublist_of` l -> Forall P k -> k `sublist_of` filter P l.
Proof.
  induction 1 as [|x k l Hkl IH|x k l Hkl IH]; intros HP.
  - done.
  - apply Forall_cons in HP as [Hx HP].
    rewrite filter_cons_True by done. constructor. by apply IH.
  - rewrite filter_cons. destruct (decide (P x)); [constructor|]; by apply IH.
Qed.

(** C5. With the tab 'All' the filter returns the list it is given. With a
    stage tab it returns a subsequence of that list (same relative order),
    made of exactly the records of the stage: a record is in the result iff it
    is in the list with that stage, and every subsequence of the list made of
    records of the stage is a subsequence of the result, so no occurrence is
    dropped. *)
Theorem filteredTokens_spec (sortedTokens : list Token.t) :
  filteredTokens TabAll sortedTokens = sortedTokens /\
  forall stage,
    filteredTokens (TabStatus stage) sortedTokens `sublist_of` sortedTokens /\
    (forall token,
       token ∈ filteredTokens (TabStatus stage) sortedTokens <->
       token ∈ sortedTokens /\ Token.status token = stage) /\
    (forall k,
       k `sublist_of` sortedTokens ->
       Forall (fun token => Token.status token = stage) k ->
       k `sublist_of` filteredTokens (TabStatus stage) sortedTokens).
Proof.
  split; [reflexivity|]. intros stage. rewrite filteredTokens_stage.
  split; [apply sublist_filter|]. split.
  - intros token. rewrite list_elem_of_filter. tauto.
  - intros k. apply sublist_filter_greatest.
Qed.

Lemma filter_stage_partition (tokens : list Token.t) :
  filter (fun token => Token.status token = NewPairs) tokens ++
  filter (fun token => Token.status token = FinalStretch) tokens ++
  filter (fun token => Token.status token = Migrated) tokens
  ≡ₚ tokens.
Proof.
  induction tokens as [|token tokens IH]; [done|].
  rewrite !filter_cons.
  destruct (Token.status token) eqn:Hs; simpl;
    repeat (destruct (decide _) as [?|?]; try congruence); simpl.
  - by rewrite IH.
  - rewrite <- Permutation_middle. by rewrite IH.
  - rewrite app_assoc, <- Permutation_middle, <- app_assoc. by rewrite IH.
Qed.

(** C6. The three stage tabs partition any token list: each filtered list
    holds only records of its stage, every record of the list is in the
    filtered list of exactly one stage, and the three filtered lists together
    are a permutation of the list, so that no occurrence is lost or repeated. *)
Theorem filteredTokens_partition (tokens : list Token.t) :
  Forall (fun token => Token.status token = NewPairs)
    (filteredTokens (TabStatus NewPairs) tokens) /\
  Forall (fun token => Token.status token = FinalStretch)
    (filteredTokens (TabStatus FinalStretch) tokens) /\
  Forall (fun token => Token.status token = Migrated)
    (filteredTokens (TabStatus Migrated) tokens) /\
  (forall token, token ∈ tokens ->
     exists stage,
       token ∈ filteredTokens (TabStatus stage) tokens /\
       forall stage', token ∈ filteredTokens (TabStatus stage') tokens ->
                      stage' = stage) /\
  filteredTokens (TabStatus NewPairs) tokens ++
  filteredTokens (TabStatus FinalStretch) tokens ++
  filteredTokens (TabStatus Migrated) tokens
  ≡ₚ tokens.
Proof.
  rewrite !filteredTokens_stage.
  assert (Honly : forall stage,
            Forall (fun token => Token.status token = stage)
              (filter (fun token => Token.status token = stage) tokens)).
  { intros stage. apply Forall_forall. by intros token [? _]%list_elem_of_filter. }
  repeat split; try apply Honly.
  - intros token Hin. exists (Token.status token). split.
    + rewrite filteredTokens_stage. by apply list_elem_of_filter.
    + intros stage'. rewrite filteredTokens_stage.
      by intros [? _]%list_elem_of_filter.
  - apply filter_stage_partition.
Qed.

(** The scenario of the specification: a 'Migrated' record is not shown under
    the tab 'New pairs'. *)
Example filteredTokens_excludes_migrated :
  filteredTokens (TabStatus NewPairs)
    [sampleToken "a" NewPairs 2; sampleToken "b" Migrated 3]
  = [sampleToken "a" NewPairs 2].
Proof. reflexivity. Qed.

(** * Beyond the claims: the hook as a state machine *)

Lemma mapM_Forall {A B} (f : A -> M B) (P : B -> Prop) l e :
  (forall a e', P (f a e').1) -> Forall P (mapM f l e).1.
Proof.
  intros Hf. revert e; induction l as [|a l IH]; intros e; [constructor|].
  simpl. unfold bind. specialize (Hf a e).
  destruct (f a e) as [b e1]. specialize (IH e1).
  destruct (mapM f l e1) as [bs e2]. by constructor.
Qed.

Section HookInvariants.
Variable random : nat -> Q.
Variable clock : nat -> Q.
Local Open Scope Q_scope.

(** A projection that [perturb] does not touch is kept by [tick]. *)
Lemma tick_fmap_frame {B} (f : Token.t -> B) data e :
  (forall token r1 r2, f (perturb token r1 r2) = f token) ->
  f <$> (tick random data e).1 = f <$> data.
Proof.
  intros Hf. apply list_eq. intros i. rewrite !list_lookup_fmap.
  destruct (data !! i) as [token|] eqn:Hi.
  - rewrite (tick_lookup random data e i token Hi). simpl. by rewrite Hf.
  - apply lookup_ge_None in Hi.
    rewrite (proj2 (lookup_ge_None _ _)); [done|]. by rewrite tick_length.
Qed.

(** Every record of the result is a record of the input, perturbed. *)
Lemma tick_Forall (P Q' : Token.t -> Prop) data e :
  (forall token k, P token -> Q' (perturb token (random k) (random (S k)))) ->
  Forall P data -> Forall Q' (tick random data e).1.
Proof.
  intros Hstep Hdata. apply Forall_lookup. intros i token' Hi'.
  assert (is_Some (data !! i)) as [token Hi].
  { apply lookup_lt_is_Some. rewrite <- (tick_length random data e).
    by eapply lookup_lt_Some. }
  rewrite (tick_lookup random data e i token Hi) in Hi'.
  replace (draws e + 2 * i + 1)%nat with (S (draws e + 2 * i)) in Hi' by lia.
  assert (token' = perturb token (random (draws e + 2 * i)%nat)
                     (random (S (draws e + 2 * i)))) as -> by congruence.
  apply Hstep. by eapply Forall_lookup_1.
Qed.

Lemma wsMockInterval_run st e :
  wsMockInterval random st e =
    if Hook.loading st || bool_decide (length (Hook.data st) = 0%nat)
    then (st, e)
    else (Hook.mk (tick random (Hook.data st) e).1 (Hook.loading st)
                  (Hook.error st),
          (tick random (Hook.data st) e).2).
Proof.
  unfold wsMockInterval.
  destruct (Hook.loading st || bool_decide (length (Hook.data st) = 0%nat));
    [reflexivity|].
  unfold bind, ret. by destruct (tick random (Hook.data st) e).
Qed.

Lemma initialLoad_run mock e :
  initialLoad mock e =
    (Hook.mk mock false None,
     mkEnv (draws e) (reads e)
       (foldl (fun initialHistory token =>
                 <[Token.id token :=
                     PriceState.mk (Token.priceUSD token) neutral]>
                   initialHistory) ∅ mock)).
Proof. reflexivity. Qed.

Lemma mockIds_NoDup : NoDup mockIds.
Proof.
  assert (bool_decide (NoDup mockIds) = true) as H%bool_decide_eq_true
    by (vm_compute; reflexivity).
  exact H.
Qed.

(** What [perturb] does not touch is, in every state the hook reaches, what
    the mock list had; the list is empty exactly while [loading], and [error]
    stays unset. *)
Lemma reachable_frame {B} (f : Token.t -> B) st e :
  (forall token r1 r2, f (perturb token r1 r2) = f token) ->
  reachable random clock st e ->
  Hook.error st = None /\
  ((Hook.loading st = true /\ Hook.data st = []) \/
   (Hook.loading st = false /\
    exists e0, f <$> Hook.data st = f <$> (mockTokens random clock e0).1)).
Proof.
  intros Hf.
  induction 1 as [e He|st e e0 _ _|st e Hreach IH].
  - split; [done | by left].
  - rewrite initialLoad_run. cbn [fst Hook.loading Hook.data Hook.error].
    split; [done|]. right. split; [done | by exists e0].
  - rewrite wsMockInterval_run.
    destruct (Hook.loading st || bool_decide (length (Hook.data st) = 0%nat))
      eqn:Hguard; [exact IH|].
    apply orb_false_iff in Hguard as [Hloading _].
    cbn [fst Hook.loading Hook.data Hook.error].
    rewrite tick_fmap_frame by done.
    destruct IH as (Herror & [[Hl _]|Hloaded]); [congruence|].
    split; [done | by right].
Qed.

(** The ids stay distinct, and the list is empty while [loading]. *)
Lemma reachable_ids st e :
  reachable random clock st e ->
  (Hook.loading st = true -> Hook.data st = []) /\
  NoDup (Token.id <$> Hook.data st).
Proof.
  intros Hreach.
  destruct (reachable_frame Token.id st e ltac:(done) Hreach)
    as (_ & [[_ Hempty]|(Hl & e0 & Hids)]).
  - rewrite Hempty. split; [done | constructor].
  - split; [congruence|].
    rewrite Hids, mockTokens_ids. apply mockIds_NoDup.
Qed.

(** An invariant of the records is one that the mock records have and that
    [perturb] keeps. *)
Lemma reachable_data_Forall (P : Token.t -> Prop) st e :
  (forall i e', P (mockToken random clock i e').1) ->
  (forall token k, P token -> P (perturb token (random k) (random (S k)))) ->
  reachable random clock st e ->
  Forall P (Hook.data st).
Proof.
  intros Hmock Hstep.
  induction 1 as [e He|st e e0 _ _|st e Hreach IH].
  - constructor.
  - rewrite initialLoad_data. unfold mockTokens.
    apply (mapM_Forall (mockToken random clock) P). exact Hmock.
  - rewrite wsMockInterval_run.
    destruct (Hook.loading st || bool_decide (length (Hook.data st) = 0%nat));
      [exact IH|].
    apply (tick_Forall P P); [exact Hstep | exact IH].
Qed.

(** X2. The shape of every state the hook reaches: [error] is never set; the
    list is empty exactly while [loading]; once loaded it is, for ever, the
    fifteen records token-0 ... token-14 in this order, five of each stage. *)
Theorem reachable_shape st e :
  reachable random clock st e ->
  Hook.error st = None /\
  ((Hook.loading st = true /\ Hook.data st = []) \/
   (Hook.loading st = false /\
    Token.id <$> Hook.data st = mockIds /\
    Token.status <$> Hook.data st =
      replicate 5 NewPairs ++ replicate 5 FinalStretch ++ replicate 5 Migrated)) /\
  NoDup (Token.id <$> Hook.data st).
Proof.
  intros Hreach.
  pose proof (reachable_ids st e Hreach) as [_ Hnodup].
  destruct (reachable_frame Token.id st e ltac:(done) Hreach)
    as (Herror & [Hloading|(Hl & e0 & Hids)]).
  { split; [done|]. split; [by left | done]. }
  destruct (reachable_frame Token.status st e ltac:(done) Hreach)
    as (_ & [[Hl' _]|(_ & e1 & Hstatuses)]); [congruence|].
  rewrite mockTokens_ids in Hids. rewrite mockTokens_statuses in Hstatuses.
  split; [done|]. split; [by right | done].
Qed.
End HookInvariants.

Section DataModel.
Variable random : nat -> Q.
Variable clock : nat -> Q.
Hypothesis random_range : forall k, (0 <= random k <= 1)%Q.
Local Open Scope Q_scope.

Lemma ofNat_nonneg n : 0 <= ofNat n.
Proof. unfold ofNat, Qle; simpl. lia. Qed.

Lemma mockToken_wellFormed i e : wellFormed (mockToken random clock i e).1.
Proof.
  pose proof (random_range (draws e)) as H1.
  pose proof (random_range (S (S (draws e)))) as H3.
  pose proof (ofNat_nonneg i) as Hi.
  unfold wellFormed. do 4 (split; [simpl; lra|]).
  exists (Qfloor (random (S (S (draws e))) * 100)). split; [reflexivity|].
  split.
  - exact (Qfloor_resp_le 0 (random (S (S (draws e))) * 100) ltac:(lra)).
  - exact (Qfloor_resp_le (random (S (S (draws e))) * 100) 100 ltac:(lra)).
Qed.

Lemma perturb_wellFormed token k :
  wellFormed token -> wellFormed (perturb token (random k) (random (S k))).
Proof.
  pose proof (random_range k) as H1. pose proof (random_range (S k)) as H2.
  intros (Hp & Hv & Hm & Hl & Hs). unfold wellFormed; simpl.
  repeat split; try done.
  - apply Qmult_lt_0_compat; [done | lra].
  - apply Qmult_lt_0_compat; [done | lra].
Qed.

(** X3. The data-model invariant. When every draw lies in [0, 1], every record
    of every state the hook reaches has a positive price and a positive
    volume, a market capitalisation of at least 1000000, a liquidity of at
    least 50000, and a whole score between 0 and 100. *)
Theorem reachable_wellFormed st e :
  reachable random clock st e ->
  Forall (fun token =>
            0 < Token.priceUSD token /\
            0 < Token.volume24h token /\
            1000000 <= Token.marketCap token /\
            50000 <= Token.liquidity token /\
            exists z : Z, Token.score token = inject_Z z /\ (0 <= z <= 100)%Z)
         (Hook.data st).
Proof.
  intros Hreach.
  apply (reachable_data_Forall random clock wellFormed st e); [..|exact Hreach].
  - intros i e'. apply mockToken_wellFormed.
  - intros token k. apply perturb_wellFormed.
Qed.
End DataModel.

Lemma sampleRandom_range k : (0 <= sampleRandom k <= 1)%Q.
Proof. destruct k as [|[|[|k]]]; split; discriminate. Qed.

Lemma sampleLoaded_reachable :
  reachable sampleRandom sampleClock sampleLoaded.1 sampleLoaded.2.
Proof.
  unfold sampleLoaded. apply (reachable_load _ _ Hook.initial).
  apply reachable_mount. vm_compute. reflexivity.
Qed.

Lemma sampleTicked_reachable :
  reachable sampleRandom sampleClock sampleTicked.1 sampleTicked.2.
Proof. apply reachable_period, sampleLoaded_reachable. Qed.

Lemma reachable_shape_witness :
  reachable sampleRandom sampleClock sampleTicked.1 sampleTicked.2 /\
  Hook.error sampleTicked.1 = None /\
  ((Hook.loading sampleTicked.1 = true /\ Hook.data sampleTicked.1 = []) \/
   (Hook.loading sampleTicked.1 = false /\
    Token.id <$> Hook.data sampleTicked.1 = mockIds /\
    Token.status <$> Hook.data sampleTicked.1 =
      replicate 5 NewPairs ++ replicate 5 FinalStretch ++ replicate 5 Migrated)) /\
  NoDup (Token.id <$> Hook.data sampleTicked.1).
Proof.
  split; [exact sampleTicked_reachable|].
  apply (reachable_shape sampleRandom sampleClock sampleTicked.1 sampleTicked.2).
  exact sampleTicked_reachable.
Defined.

Lemma reachable_wellFormed_witness :
  (forall k, (0 <= sampleRandom k <= 1)%Q) /\
  reachable sampleRandom sampleClock sampleTicked.1 sampleTicked.2 /\
  Forall (fun token =>
            0 < Token.priceUSD token /\
            0 < Token.volume24h token /\
            1000000 <= Token.marketCap token /\
            50000 <= Token.liquidity token /\
            exists z : Z, Token.score token = inject_Z z /\ (0 <= z <= 100)%Z)%Q
         (Hook.data sampleTicked.1).
Proof.
  split; [exact sampleRandom_range|].
  split; [exact sampleTicked_reachable|].
  apply (reachable_wellFormed sampleRandom sampleClock sampleRandom_range
           sampleTicked.1 sampleTicked.2).
  exact sampleTicked_reachable.
Defined.

Section HistoryInvariants.
Variable random : nat -> Q.
Variable clock : nat -> Q.

Lemma initialHistory_dom (mock : list Token.t) (m : gmap string PriceState.t) :
  dom (foldl (fun initialHistory token =>
                <[Token.id token :=
                    PriceState.mk (Token.priceUSD token) neutral]>
                  initialHistory) m mock)
  = list_to_set (Token.id <$> mock) ∪ dom m :> gset string.
Proof.
  revert m; induction mock as [|token mock IH]; intros m; simpl.
  - by rewrite (left_id_L ∅ (∪)).
  - rewrite IH, dom_insert_L.
    by rewrite (assoc_L (∪)), (comm_L (∪) (list_to_set _) {[_]}).
Qed.

Lemma tick_history_dom data e :
  dom (history (tick random data e).2)
  = list_to_set (Token.id <$> data) ∪ dom (history e) :> gset string.
Proof.
  revert e; induction data as [|token data IH]; intros e.
  - rewrite tick_nil; simpl. by rewrite (left_id_L ∅ (∪)).
  - rewrite tick_cons, updateToken_run.
    specialize (IH (updateEnv token (random (draws e)) e)).
    destruct (tick random data _) as [data' e2]; simpl in *.
    rewrite IH, dom_insert_L.
    by rewrite (assoc_L (∪)), (comm_L (∪) (list_to_set _) {[_]}).
Qed.

Lemma reachable_dom st e :
  reachable random clock st e ->
  dom (history e) = list_to_set (Token.id <$> Hook.data st) :> gset string.
Proof.
  induction 1 as [e He|st e e0 _ _|st e Hreach IH].
  - by rewrite He, dom_empty_L.
  - generalize (mockTokens random clock e0).1. intros mock.
    rewrite initialLoad_run.
    change (dom (foldl (fun initialHistory token =>
                <[Token.id token :=
                    PriceState.mk (Token.priceUSD token) neutral]>
                  initialHistory) (∅ : gmap string PriceState.t) mock)
            = list_to_set (Token.id <$> mock) :> gset string).
    by rewrite initialHistory_dom, dom_empty_L, (right_id_L ∅ (∪)).
  - rewrite wsMockInterval_run.
    destruct (Hook.loading st || bool_decide (length (Hook.data st) = 0%nat));
      [exact IH|].
    cbn [fst snd Hook.data].
    rewrite tick_history_dom, (tick_fmap_frame random Token.id) by done.
    by rewrite IH, (idemp_L (∪)).
Qed.

(** X4. The observation map follows the list. In every state the hook reaches,
    an id has an observation exactly when a record of [data] carries it: no
    entry is stale, and every row finds its own observation, so that the
    fallback [|| { priceUSD: token.priceUSD, trend: 'neutral' }] of [App] is
    never the value a row gets. *)
Theorem reachable_history_dom st e :
  reachable random clock st e ->
  (forall id : string,
     is_Some (history e !! id) <-> id ∈ Token.id <$> Hook.data st) /\
  (forall token, token ∈ Hook.data st ->
     history e !! Token.id token = Some (rowPriceState (history e) token)).
Proof.
  intros Hdom%reachable_dom.
  assert (Hiff : forall id : string,
            is_Some (history e !! id) <-> id ∈ Token.id <$> Hook.data st).
  { intros id. by rewrite <- elem_of_dom, Hdom, elem_of_list_to_set. }
  split; [exact Hiff|].
  intros token Hin. unfold rowPriceState.
  destruct (Hiff (Token.id token)) as [_ [priceState Hps]].
  { by apply list_elem_of_fmap_2. }
  by rewrite Hps.
Qed.

(** X5. One period, seen from a row. In every state the hook reaches, a period
    leaves each record at its position with its id, and the observation
    stored under that id holds the price the record had before the period
    and the trend of the move to its new price. No assumption on the ids is
    needed: they are distinct in every reachable state. *)
Theorem period_observation st e i token :
  reachable random clock st e ->
  Hook.data st !! i = Some token ->
  exists token',
    Hook.data (wsMockInterval random st e).1 !! i = Some token' /\
    Token.id token' = Token.id token /\
    history (wsMockInterval random st e).2 !! Token.id token' =
      Some (PriceState.mk (Token.priceUSD token)
              (classify (Token.priceUSD token') (Token.priceUSD token))).
Proof.
  intros Hreach Hi.
  destruct (reachable_ids random clock st e Hreach) as (Hempty & Hnodup).
  rewrite wsMockInterval_run.
  destruct (Hook.loading st || bool_decide (length (Hook.data st) = 0%nat))
    eqn:Hguard.
  { apply orb_true_iff in Hguard as [Hl|Hlen%bool_decide_eq_true].
    - by rewrite (Hempty Hl) in Hi.
    - apply lookup_lt_Some in Hi. lia. }
  cbn [fst snd Hook.data].
  exists (perturb token (random (draws e + 2 * i)%nat)
                        (random (draws e + 2 * i + 1)%nat)).
  split; [by apply tick_lookup|]. split; [reflexivity|].
  change (Token.id (perturb token _ _)) with (Token.id token).
  rewrite (tick_history_last random (Hook.data st) e i token Hi); [reflexivity|].
  intros j other Hj Hother Heq.
  assert (i = j); [|lia].
  eapply (NoDup_lookup (Token.id <$> Hook.data st)); [exact Hnodup|..];
    rewrite list_lookup_fmap.
  - by rewrite Hi.
  - rewrite Hother. simpl. by rewrite Heq.
Qed.
End HistoryInvariants.

Lemma sampleLoaded_first : Hook.data sampleLoaded.1 !! 0%nat = Some sampleFirst.
Proof. vm_compute. reflexivity. Qed.

Lemma reachable_history_dom_witness :
  reachable sampleRandom sampleClock sampleTicked.1 sampleTicked.2 /\
  (forall id : string,
     is_Some (history sampleTicked.2 !! id) <->
     id ∈ Token.id <$> Hook.data sampleTicked.1) /\
  (forall token, token ∈ Hook.data sampleTicked.1 ->
     history sampleTicked.2 !! Token.id token
       = Some (rowPriceState (history sampleTicked.2) token)).
Proof.
  split; [exact sampleTicked_reachable|].
  apply (reachable_history_dom sampleRandom sampleClock
           sampleTicked.1 sampleTicked.2).
  exact sampleTicked_reachable.
Defined.

Lemma period_observation_witness :
  reachable sampleRandom sampleClock sampleLoaded.1 sampleLoaded.2 /\
  Hook.data sampleLoaded.1 !! 0%nat = Some sampleFirst /\
  exists token',
    Hook.data (wsMockInterval sampleRandom sampleLoaded.1 sampleLoaded.2).1
      !! 0%nat = Some token' /\
    Token.id token' = Token.id sampleFirst /\
    history (wsMockInterval sampleRandom sampleLoaded.1 sampleLoaded.2).2
      !! Token.id token' =
      Some (PriceState.mk (Token.priceUSD sampleFirst)
              (classify (Token.priceUSD token') (Token.priceUSD sampleFirst))).
Proof.
  split; [exact sampleLoaded_reachable|].
  split; [exact sampleLoaded_first|].
  apply (period_observation sampleRandom sampleClock
           sampleLoaded.1 sampleLoaded.2 0 sampleFirst).
  - exact sampleLoaded_reachable.
  - exact sampleLoaded_first.
Defined.

(** * Beyond the claims: what a row shows *)

Lemma append_empty (s1 s2 : string) : s1 +:+ s2 = "" -> s1 = "" /\ s2 = "".
Proof. destruct s1; [done | discriminate]. Qed.

Section RowDisplay.
Variable toFixed : Number -> nat -> string.
Local Open Scope Q_scope.


(** X8. The percentage is hidden in two cases only: the trend is neutral, or the
    division gave NaN, which happens exactly when the stored price and the
    current price are both zero. A stored price of zero under another
    current price gives an infinity, which is not hidden. *)
Theorem priceDiffText_empty_iff token priceState :
  priceDiffText toFixed token priceState = "" <->
  PriceState.trend priceState = neutral \/
  (PriceState.priceUSD priceState == 0 /\ Token.priceUSD token == 0).
Proof.
  unfold priceDiffText, priceDiff, divide.
  destruct (Qeq_dec (PriceState.priceUSD priceState) 0) as [Hzero|Hprev];
    [destruct (Qlt_le_dec 0 (Token.priceUSD token - PriceState.priceUSD priceState));
     [|destruct (Qlt_le_dec (Token.priceUSD token - PriceState.priceUSD priceState) 0)]|];
    simpl; destruct (decide (PriceState.trend priceState = neutral)) as [Hn|Hn];
    rewrite ?(bool_decide_eq_true_2 _ Hn), ?(bool_decide_eq_false_2 _ Hn),
            ?orb_true_r; simpl;
    (split; [|intros [?|[? ?]]]);
    try (intros [_ [_ ?]%append_empty]%append_empty; discriminate);
    try tauto; try (right; split; lra); try lra.
Qed.

End RowDisplay.


(** * Beyond the claims: the sort *)

Section StableSort.
Context {A : Type} (cmp : A -> A -> Q).
Local Open Scope Q_scope.

(** A sorted list is left as it is. *)
Lemma arraySort_fixed l :
  StronglySorted (fun x y => cmp x y <= 0) l -> arraySort cmp l = l.
Proof.
  induction 1 as [|a l Hl IH Ha]; simpl; [done|].
  rewrite IH. destruct Ha as [|b l Hab _]; simpl; [done|].
  destruct (Qlt_le_dec 0 (cmp a b)); [lra | done].
Qed.

Section Class.
Context (P : A -> Prop) `{!forall a, Decision (P a)}.
(** [P] is a class of elements none of which has to go after another. *)
Hypothesis tied : forall a b, P a -> P b -> cmp a b <= 0.

Lemma filter_sortInsert_in a l :
  P a -> filter P (sortInsert cmp a l) = a :: filter P l.
Proof.
  intros Ha. induction l as [|b l IH]; simpl.
  - by rewrite filter_cons_True.
  - destruct (Qlt_le_dec 0 (cmp a b)) as [Hgt|Hle].
    + assert (~ P b) as Hb by (intros Hb; specialize (tied a b Ha Hb); lra).
      by rewrite !(filter_cons_False _ b) by done.
    + by rewrite (filter_cons_True _ a) by done.
Qed.

Lemma filter_sortInsert_out a l :
  ~ P a -> filter P (sortInsert cmp a l) = filter P l.
Proof.
  intros Ha. induction l as [|b l IH]; simpl.
  - by rewrite filter_cons_False.
  - destruct (Qlt_le_dec 0 (cmp a b)).
    + rewrite !(filter_cons _ b). by rewrite IH.
    + by rewrite (filter_cons_False _ a) by done.
Qed.

(** The elements of the class come out in the order they went in. *)
Lemma filter_arraySort l : filter P (arraySort cmp l) = filter P l.
Proof.
  induction l as [|a l IH]; simpl; [done|].
  destruct (decide (P a)) as [Ha|Ha].
  - by rewrite filter_sortInsert_in, filter_cons_True, IH.
  - by rewrite filter_sortInsert_out, filter_cons_False, IH.
Qed.
End Class.

Section Consistent.
Hypothesis cmp_antisym : forall a b, 0 < cmp a b -> cmp b a <= 0.
Hypothesis cmp_trans : forall a b c, cmp a b <= 0 -> cmp b c <= 0 -> cmp a c <= 0.
Context (P : A -> Prop) `{!forall a, Decision (P a)}.

(** Inserting into a sorted list and filtering commute. *)
Lemma filter_sortInsert_sorted a l :
  StronglySorted (fun x y => cmp x y <= 0) l ->
  filter P (sortInsert cmp a l) =
    if decide (P a) then sortInsert cmp a (filter P l) else filter P l.
Proof.
  induction 1 as [|b l Hl IH Hb]; simpl.
  - rewrite filter_cons, filter_nil. by destruct (decide (P a)).
  - destruct (Qlt_le_dec 0 (cmp a b)) as [Hgt|Hle].
    + rewrite !(filter_cons _ b), IH.
      destruct (decide (P b)), (decide (P a)); simpl; try done.
      by destruct (Qlt_le_dec 0 (cmp a b)); [|lra].
    + rewrite (filter_cons _ a). destruct (decide (P a)) as [Ha|Ha]; [|done].
      assert (Hall : Forall (fun c => cmp a c <= 0) (filter P (b :: l))).
      { apply Forall_forall. intros c [_ Hc]%list_elem_of_filter.
        apply elem_of_cons in Hc as [->|Hc]; [done|].
        eapply cmp_trans; [exact Hle|]. by eapply Forall_forall in Hb. }
      destruct (filter P (b :: l)) as [|c k]; simpl; [done|].
      apply Forall_cons in Hall as [Hc _].
      destruct (Qlt_le_dec 0 (cmp a c)); [lra | done].
Qed.

(** Sorting and filtering commute. *)
Lemma filter_arraySort_comm l :
  filter P (arraySort cmp l) = arraySort cmp (filter P l).
Proof.
  induction l as [|a l IH]; simpl; [done|].
  rewrite filter_sortInsert_sorted by by apply arraySort_sorted.
  rewrite filter_cons. destruct (decide (P a)); simpl; by rewrite IH.
Qed.
End Consistent.
End StableSort.

Lemma StronglySorted_mono {A} (R R' : A -> A -> Prop) l :
  (forall x y, R x y -> R' x y) -> StronglySorted R l -> StronglySorted R' l.
Proof.
  intros HR. induction 1 as [|a l Hl IH Ha]; constructor; [done|].
  eapply Forall_impl; [exact Ha | auto].
Qed.

Section TokenSort.
Variable localeCompare : string -> string -> Q.
Local Open Scope Q_scope.

Lemma compareTokens_numeric key direction a b :
  keyIsNumeric key = true ->
  compareTokens localeCompare key direction a b =
    if decide (direction = asc)
    then numericValue key a - numericValue key b
    else - (numericValue key a - numericValue key b).
Proof. by destruct key. Qed.

Lemma compareTokens_numeric_antisym key direction a b :
  keyIsNumeric key = true ->
  0 < compareTokens localeCompare key direction a b ->
  compareTokens localeCompare key direction b a <= 0.
Proof.
  intros Hk. rewrite !compareTokens_numeric by done.
  destruct (decide (direction = asc)); lra.
Qed.

Lemma compareTokens_numeric_trans key direction a b c :
  keyIsNumeric key = true ->
  compareTokens localeCompare key direction a b <= 0 ->
  compareTokens localeCompare key direction b c <= 0 ->
  compareTokens localeCompare key direction a c <= 0.
Proof.
  intros Hk. rewrite !compareTokens_numeric by done.
  destruct (decide (direction = asc)); lra.
Qed.

(** X12. Sorting neither drops nor repeats a record: whatever the sort state, the
    sorted list is a permutation of the list, of the same length. *)
Theorem sortedTokens_perm (tokens : list Token.t) (sortState : SortState.t) :
  sortedTokens localeCompare tokens sortState ≡ₚ tokens /\
  length (sortedTokens localeCompare tokens sortState) = length tokens.
Proof.
  assert (Hperm : sortedTokens localeCompare tokens sortState ≡ₚ tokens).
  { unfold sortedTokens. destruct (SortState.key sortState); [|done].
    apply arraySort_perm. }
  split; [exact Hperm | by rewrite Hperm].
Qed.

(** X13. Under a numeric key the result is ordered by the value of the key:
    ascending, no record is followed, however far, by one of smaller value;
    descending, by one of greater value. *)
Theorem sortedTokens_numeric_sorted key (tokens : list Token.t) :
  keyIsNumeric key = true ->
  StronglySorted (fun a b => numericValue key a <= numericValue key b)
    (sortedTokens localeCompare tokens (SortState.mk (Some key) asc)) /\
  StronglySorted (fun a b => numericValue key b <= numericValue key a)
    (sortedTokens localeCompare tokens (SortState.mk (Some key) desc)).
Proof.
  intros Hk. unfold sortedTokens; simpl. split.
  - eapply StronglySorted_mono;
      [|apply (arraySort_sorted (compareTokens localeCompare key asc))].
    + intros a b. cbv beta. rewrite compareTokens_numeric by done. simpl. lra.
    + intros a b. by apply compareTokens_numeric_antisym.
    + intros a b c. by apply compareTokens_numeric_trans.
  - eapply StronglySorted_mono;
      [|apply (arraySort_sorted (compareTokens localeCompare key desc))].
    + intros a b. cbv beta. rewrite compareTokens_numeric by done. simpl. lra.
    + intros a b. by apply compareTokens_numeric_antisym.
    + intros a b c. by apply compareTokens_numeric_trans.
Qed.

(** X14. The sort is stable: under a numeric key and either direction, the records
    that hold one and the same value come out in the order they had in the
    input. *)
Theorem sortedTokens_numeric_stable key direction (tokens : list Token.t) (v : Q) :
  keyIsNumeric key = true ->
  filter (fun token => numericValue key token == v)
    (sortedTokens localeCompare tokens (SortState.mk (Some key) direction))
  = filter (fun token => numericValue key token == v) tokens.
Proof.
  intros Hk. unfold sortedTokens; simpl.
  apply filter_arraySort. intros a b Ha Hb.
  rewrite compareTokens_numeric by done.
  destruct (decide (direction = asc)); lra.
Qed.

(** X15. Sorting an already sorted list changes nothing: under a numeric key,
    sorting twice is sorting once. *)
Theorem sortedTokens_numeric_idempotent key direction (tokens : list Token.t) :
  keyIsNumeric key = true ->
  sortedTokens localeCompare
    (sortedTokens localeCompare tokens (SortState.mk (Some key) direction))
    (SortState.mk (Some key) direction)
  = sortedTokens localeCompare tokens (SortState.mk (Some key) direction).
Proof.
  intros Hk. unfold sortedTokens; simpl.
  apply arraySort_fixed, arraySort_sorted.
  - intros a b. by apply compareTokens_numeric_antisym.
  - intros a b c. by apply compareTokens_numeric_trans.
Qed.
End TokenSort.

Section ConsistentCollation.
Variable localeCompare : string -> string -> Q.
Local Open Scope Q_scope.

(** What a collation is expected to be: exchanging the arguments exchanges
    the sign, and "not after" is transitive. *)
Hypothesis localeCompare_sign :
  forall x y, 0 < localeCompare x y <-> localeCompare y x < 0.
Hypothesis localeCompare_trans :
  forall x y z,
    localeCompare x y <= 0 -> localeCompare y z <= 0 -> localeCompare x z <= 0.

Lemma localeCompare_trans_ge x y z :
  0 <= localeCompare x y -> 0 <= localeCompare y z -> 0 <= localeCompare x z.
Proof.
  intros Hxy Hyz.
  destruct (Qlt_le_dec (localeCompare x z) 0) as [Hneg|]; [|done].
  apply localeCompare_sign in Hneg.
  assert (Hyx : localeCompare y x <= 0).
  { destruct (Qlt_le_dec 0 (localeCompare y x)) as [Hp%localeCompare_sign|]; lra. }
  assert (Hzy : localeCompare z y <= 0).
  { destruct (Qlt_le_dec 0 (localeCompare z y)) as [Hp%localeCompare_sign|]; lra. }
  pose proof (localeCompare_trans z y x Hzy Hyx). lra.
Qed.

Lemma compareTokens_antisym key direction a b :
  0 < compareTokens localeCompare key direction a b ->
  compareTokens localeCompare key direction b a <= 0.
Proof.
  unfold compareTokens.
  destruct key; simpl; destruct (decide (direction = asc)); try lra;
    intros H.
  all: try (apply localeCompare_sign in H; lra).
  all: match goal with
       | |- - localeCompare ?y ?x <= 0 =>
           destruct (Qlt_le_dec (localeCompare y x) 0)
             as [Hneg%localeCompare_sign|]; lra
       end.
Qed.

Lemma compareTokens_trans key direction a b c :
  compareTokens localeCompare key direction a b <= 0 ->
  compareTokens localeCompare key direction b c <= 0 ->
  compareTokens localeCompare key direction a c <= 0.
Proof.
  unfold compareTokens.
  destruct key; simpl; destruct (decide (direction = asc)); try lra;
    intros Hab Hbc.
  all: try (eapply localeCompare_trans; eassumption).
  all: match goal with
       | |- - localeCompare ?x ?z <= 0 =>
           match type of Hab with
           | - localeCompare _ ?y <= 0 =>
               pose proof (localeCompare_trans_ge x y z); lra
           end
       end.
Qed.

(** X16. Filtering and sorting commute. Under a consistent collation, for every
    sort state and every tab, the rows of the tab are the same whether the
    list is sorted and then filtered, as [App] does, or filtered and then
    sorted. *)
Theorem filteredTokens_sortedTokens_comm (activeTab : Tab)
    (tokens : list Token.t) (sortState : SortState.t) :
  filteredTokens activeTab (sortedTokens localeCompare tokens sortState)
  = sortedTokens localeCompare (filteredTokens activeTab tokens) sortState.
Proof.
  unfold filteredTokens. destruct (decide (activeTab = TabAll)); [done|].
  unfold sortedTokens. destruct (SortState.key sortState) as [key|]; [|done].
  apply filter_arraySort_comm.
  - intros a b. apply compareTokens_antisym.
  - intros a b c. apply compareTokens_trans.
Qed.
End ConsistentCollation.

Lemma codeCompare_sign x y :
  (0 < codeCompare x y <-> codeCompare y x < 0)%Q.
Proof.
  unfold codeCompare.
  change (String.compare x y) with (OrderedTypeEx.String_as_OT.cmp x y).
  change (String.compare y x) with (OrderedTypeEx.String_as_OT.cmp y x).
  rewrite (OrderedTypeEx.String_as_OT.cmp_antisym x y).
  by destruct (OrderedTypeEx.String_as_OT.cmp y x).
Qed.

Lemma codeCompare_trans x y z :
  (codeCompare x y <= 0 -> codeCompare y z <= 0 -> codeCompare x z <= 0)%Q.
Proof.
  unfold codeCompare.
  change (String.compare x y) with (OrderedTypeEx.String_as_OT.cmp x y).
  change (String.compare y z) with (OrderedTypeEx.String_as_OT.cmp y z).
  change (String.compare x z) with (OrderedTypeEx.String_as_OT.cmp x z).
  destruct (OrderedTypeEx.String_as_OT.cmp x y) eqn:Hxy;
    [apply OrderedTypeEx.String_as_OT.cmp_eq in Hxy as ->; tauto | |
     intros; lra].
  destruct (OrderedTypeEx.String_as_OT.cmp y z) eqn:Hyz;
    [apply OrderedTypeEx.String_as_OT.cmp_eq in Hyz as <-; by rewrite Hxy | |
     intros; lra].
  apply OrderedTypeEx.String_as_OT.cmp_lt in Hxy, Hyz.
  pose proof (OrderedTypeEx.String_as_OT.lt_trans _ _ _ Hxy Hyz) as Hxz.
  apply OrderedTypeEx.String_as_OT.cmp_lt in Hxz. by rewrite Hxz.
Qed.

Lemma filteredTokens_sortedTokens_comm_witness :
  (forall x y, (0 < codeCompare x y <-> codeCompare y x < 0)%Q) /\
  (forall x y z,
     (codeCompare x y <= 0 -> codeCompare y z <= 0 -> codeCompare x z <= 0)%Q) /\
  filteredTokens (TabStatus Migrated)
    (sortedTokens codeCompare (Hook.data sampleLoaded.1)
       (SortState.mk (Some Kname) asc))
  = sortedTokens codeCompare
      (filteredTokens (TabStatus Migrated) (Hook.data sampleLoaded.1))
      (SortState.mk (Some Kname) asc).
Proof.
  split; [exact codeCompare_sign|]. split; [exact codeCompare_trans|].
  apply (filteredTokens_sortedTokens_comm codeCompare
           codeCompare_sign codeCompare_trans).
Defined.

Lemma sortedTokens_numeric_sorted_witness :
  keyIsNumeric KpriceUSD = true /\
  StronglySorted (fun a b => numericValue KpriceUSD a <= numericValue KpriceUSD b)%Q
    (sortedTokens codeCompare
       [sampleToken "a" NewPairs 2; sampleToken "b" Migrated 3;
        sampleToken "c" NewPairs 1]
       (SortState.mk (Some KpriceUSD) asc)) /\
  StronglySorted (fun a b => numericValue KpriceUSD b <= numericValue KpriceUSD a)%Q
    (sortedTokens codeCompare
       [sampleToken "a" NewPairs 2; sampleToken "b" Migrated 3;
        sampleToken "c" NewPairs 1]
       (SortState.mk (Some KpriceUSD) desc)).
Proof.
  split; [reflexivity|].
  apply (sortedTokens_numeric_sorted codeCompare KpriceUSD). reflexivity.
Defined.

Lemma sortedTokens_numeric_stable_witness :
  keyIsNumeric KmarketCap = true /\
  filter (fun token => numericValue KmarketCap token == 1000000)%Q
    (sortedTokens codeCompare
       [sampleToken "a" NewPairs 2; sampleToken "b" Migrated 3;
        sampleToken "c" NewPairs 1]
       (SortState.mk (Some KmarketCap) desc))
  = filter (fun token => numericValue KmarketCap token == 1000000)%Q
      [sampleToken "a" NewPairs 2; sampleToken "b" Migrated 3;
       sampleToken "c" NewPairs 1].
Proof.
  split; [reflexivity|].
  apply (sortedTokens_numeric_stable codeCompare KmarketCap desc). reflexivity.
Defined.

Lemma sortedTokens_numeric_idempotent_witness :
  keyIsNumeric KpriceUSD = true /\
  sortedTokens codeCompare
    (sortedTokens codeCompare
       [sampleToken "a" NewPairs 2; sampleToken "b" Migrated 3;
        sampleToken "c" NewPairs 1]
       (SortState.mk (Some KpriceUSD) desc))
    (SortState.mk (Some KpriceUSD) desc)
  = sortedTokens codeCompare
      [sampleToken "a" NewPairs 2; sampleToken "b" Migrated 3;
       sampleToken "c" NewPairs 1]
      (SortState.mk (Some KpriceUSD) desc).
Proof.
  split; [reflexivity|].
  apply (sortedTokens_numeric_idempotent codeCompare KpriceUSD desc). reflexivity.
Defined.

(** * Beyond the claims: the header *)

Lemma handleSort_key tokens key prev :
  SortState.key (handleSort tokens key prev) = Some key.
Proof. unfold handleSort. by destruct (decide (SortState.key prev = Some key)). Qed.

(** X19. Clicking one header again and again alternates between two states: from
    the second click on the direction flips and nothing else changes, so the
    third click gives back the state of the first, whatever the token lists
    at the three moments. *)
Theorem handleSort_third_click (tokens1 tokens2 tokens3 : list Token.t)
    (key : Key) (prev : SortState.t) :
  handleSort tokens3 key (handleSort tokens2 key (handleSort tokens1 key prev))
  = handleSort tokens1 key prev /\
  SortState.direction (handleSort tokens2 key (handleSort tokens1 key prev))
  = flipDirection (SortState.direction (handleSort tokens1 key prev)).
Proof.
  pose proof (handleSort_key tokens1 key prev) as Hk.
  destruct (handleSort tokens1 key prev) as [k d]. simpl in Hk. subst k.
  rewrite !handleSort_same_key. by destruct d.
Qed.

Lemma tokenColumns_sortable col : col ∈ tokenColumns -> Column.sortable col = true.
Proof.
  unfold tokenColumns. rewrite !elem_of_cons, elem_of_nil.
  intros [->|[->|[->|[->|[->|[->|[->|[->|[]]]]]]]]]; reflexivity.
Qed.

Lemma afterClicks_snoc clicks tokens col :
  afterClicks (clicks ++ [(tokens, col)]) =
    clickHeader tokens col (afterClicks clicks).
Proof. unfold afterClicks. by rewrite foldl_app. Qed.

(** X20. The sort key is never none. After any series of clicks on the headers of
    the table the key is the key of the column clicked last (market
    capitalisation before the first click), so [sortedTokens] never takes
    its branch for a missing key. *)
Theorem afterClicks_key (clicks : list (list Token.t * Column.t)) :
  Forall (fun click => click.2 ∈ tokenColumns) clicks ->
  SortState.key (afterClicks clicks) =
    Some (default KmarketCap (Column.key <$> (snd <$> last clicks))) /\
  SortState.key (afterClicks clicks) <> None.
Proof.
  intros Hclicks.
  assert (Hkey : SortState.key (afterClicks clicks) =
            Some (default KmarketCap (Column.key <$> (snd <$> last clicks)))).
  { destruct clicks as [|click clicks _] using rev_ind; [reflexivity|].
    destruct click as [tokens col].
    apply Forall_app in Hclicks as [_ [Hcol _]%Forall_cons].
    rewrite afterClicks_snoc, last_snoc. unfold clickHeader.
    rewrite (tokenColumns_sortable col Hcol). apply handleSort_key. }
  split; [exact Hkey | by rewrite Hkey].
Qed.

(** X21. Exactly one header is highlighted: after a click on a column of the
    table, that column is the current one and no other is. *)
Theorem clickHeader_current (tokens : list Token.t) (col : Column.t)
    (prev : SortState.t) :
  col ∈ tokenColumns ->
  filter (fun c => isCurrent (clickHeader tokens col prev) c = true) tokenColumns
  = [col].
Proof.
  intros Hcol. unfold clickHeader, isCurrent.
  rewrite (tokenColumns_sortable col Hcol).
  pose proof (handleSort_key tokens (Column.key col) prev) as Hk.
  destruct (handleSort tokens (Column.key col) prev) as [k d].
  simpl in Hk; subst k; simpl.
  unfold tokenColumns in *. rewrite !elem_of_cons, elem_of_nil in Hcol.
  destruct Hcol as [->|[->|[->|[->|[->|[->|[->|[->|[]]]]]]]]]; reflexivity.
Qed.

Lemma handleSort_new_key_witness :
  [sampleToken "a" NewPairs 2] !! 0%nat = Some (sampleToken "a" NewPairs 2) /\
  SortState.key initialSortState <> Some Kname /\
  handleSort [sampleToken "a" NewPairs 2] Kname initialSortState =
    SortState.mk (Some Kname) (if keyIsNumeric Kname then desc else asc).
Proof.
  split; [reflexivity|]. split; [discriminate|].
  apply (handleSort_new_key [sampleToken "a" NewPairs 2]
           (sampleToken "a" NewPairs 2) Kname initialSortState).
  - reflexivity.
  - discriminate.
Defined.

Lemma afterClicks_key_witness :
  Forall (fun click => click.2 ∈ tokenColumns)
    [([], Column.mk Kname "Token" true AlignLeft false);
     ([sampleToken "a" NewPairs 2],
      Column.mk Kstatus "Stage" true AlignCenter true)] /\
  SortState.key
    (afterClicks
       [([], Column.mk Kname "Token" true AlignLeft false);
        ([sampleToken "a" NewPairs 2],
         Column.mk Kstatus "Stage" true AlignCenter true)])
  = Some (default KmarketCap
            (Column.key <$>
               (snd <$> last
                  [([], Column.mk Kname "Token" true AlignLeft false);
                   ([sampleToken "a" NewPairs 2],
                    Column.mk Kstatus "Stage" true AlignCenter true)]))) /\
  SortState.key
    (afterClicks
       [([], Column.mk Kname "Token" true AlignLeft false);
        ([sampleToken "a" NewPairs 2],
         Column.mk Kstatus "Stage" true AlignCenter true)])
  <> None.
Proof.
  assert (Hclicks : Forall (fun click => click.2 ∈ tokenColumns)
    [([], Column.mk Kname "Token" true AlignLeft false);
     ([sampleToken "a" NewPairs 2],
      Column.mk Kstatus "Stage" true AlignCenter true)]).
  { repeat constructor. }
  split; [exact Hclicks|].
  exact (afterClicks_key _ Hclicks).
Defined.

Lemma clickHeader_current_witness :
  Column.mk Kstatus "Stage" true AlignCenter true ∈ tokenColumns /\
  filter (fun c =>
            isCurrent (clickHeader [] (Column.mk Kstatus "Stage" true AlignCenter true)
                         initialSortState) c = true)
         tokenColumns
  = [Column.mk Kstatus "Stage" true AlignCenter true].
Proof.
  assert (Hcol : Column.mk Kstatus "Stage" true AlignCenter true ∈ tokenColumns)
    by repeat constructor.
  split; [exact Hcol|].
  exact (clickHeader_current [] _ initialSortState Hcol).
Defined.

(** * Beyond the claims: the tabs *)

Section Counts.

Lemma statusLabel_not_All stage : statusLabel stage <> "All".
Proof. by destruct stage. Qed.

Lemma count_fold_All (counts : gmap string nat) tokens :
  foldl countToken counts tokens !! "All" = counts !! "All".
Proof.
  revert counts; induction tokens as [|token tokens IH]; intros counts; [done|].
  simpl. rewrite IH. unfold countToken.
  apply lookup_insert_ne, statusLabel_not_All.
Qed.

Lemma count_fold_stage (counts : gmap string nat) tokens stage :
  default 0%nat (foldl countToken counts tokens !! statusLabel stage) =
    (default 0 (counts !! statusLabel stage)
     + length (filter (fun token => Token.status token = stage) tokens))%nat.
Proof.
  revert counts; induction tokens as [|token tokens IH]; intros counts.
  - simpl. lia.
  - simpl. rewrite IH. unfold countToken. rewrite filter_cons.
    destruct (decide (Token.status token = stage)) as [->|Hne].
    + rewrite lookup_insert_eq. simpl. lia.
    + rewrite lookup_insert_ne; [done|].
      intros Heq. by apply Hne, statusLabel_inj.
Qed.

Lemma tabCount_All tokens : tabCount (tokenCounts tokens) TabAll = length tokens.
Proof.
  unfold tabCount, tokenCounts. simpl.
  by rewrite count_fold_All, lookup_singleton_eq.
Qed.

Lemma tabCount_stage tokens stage :
  tabCount (tokenCounts tokens) (TabStatus stage) =
    length (filter (fun token => Token.status token = stage) tokens).
Proof.
  unfold tabCount, tokenCounts. simpl.
  rewrite count_fold_stage, lookup_singleton_ne; [done|].
  intros Heq. by apply (statusLabel_not_All stage).
Qed.

(** X22. The number on a tab is the number of rows the tab shows: for every list,
    sort state and tab, the count [tokenCounts] gives for the tab ([0] for a
    stage that has no key in it) is the length of the sorted and filtered
    list. *)
Theorem tabCount_rows (localeCompare : string -> string -> Q)
    (tokens : list Token.t) (sortState : SortState.t) (activeTab : Tab) :
  tabCount (tokenCounts tokens) activeTab =
    length (filteredTokens activeTab
              (sortedTokens localeCompare tokens sortState)).
Proof.
  assert (Hperm : sortedTokens localeCompare tokens sortState ≡ₚ tokens).
  { unfold sortedTokens. destruct (SortState.key sortState); [|done].
    apply arraySort_perm. }
  destruct activeTab as [|stage].
  - rewrite tabCount_All. unfold filteredTokens. simpl. by rewrite Hperm.
  - rewrite tabCount_stage, filteredTokens_stage. by rewrite Hperm.
Qed.

(** X23. The three stage tabs add up to the tab 'All'. *)
Theorem tabCount_sum (tokens : list Token.t) :
  (tabCount (tokenCounts tokens) (TabStatus NewPairs)
   + tabCount (tokenCounts tokens) (TabStatus FinalStretch)
   + tabCount (tokenCounts tokens) (TabStatus Migrated))%nat
  = tabCount (tokenCounts tokens) TabAll.
Proof.
  rewrite !tabCount_stage, tabCount_All.
  rewrite <- (filter_stage_partition tokens) at 4.
  rewrite !length_app. lia.
Qed.

Lemma tokenCounts_ext tokens1 tokens2 :
  Token.status <$> tokens1 = Token.status <$> tokens2 ->
  tokenCounts tokens1 = tokenCounts tokens2.
Proof.
  intros Hs. unfold tokenCounts.
  assert (Hlen : length tokens1 = length tokens2).
  { by rewrite <- (length_fmap Token.status tokens1), Hs, length_fmap. }
  rewrite Hlen. generalize ({["All" := length tokens2]} : gmap string nat).
  clear Hlen. revert tokens2 Hs.
  induction tokens1 as [|t1 tokens1 IH]; intros [|t2 tokens2] Hs counts;
    try done.
  simpl in *. injection Hs as Hhead Htail.
  unfold countToken at 2 4. rewrite Hhead. by apply IH.
Qed.

(** X24. The counts of the tabs do not move with the prices: a tick leaves
    [tokenCounts] as it was. *)
Theorem tokenCounts_tick (random : nat -> Q) (data : list Token.t) (e : Env) :
  tokenCounts (tick random data e).1 = tokenCounts data.
Proof. apply tokenCounts_ext. by apply tick_fmap_frame. Qed.
End Counts.

(** * Beyond the claims: the launch time *)

Section LaunchTime.
Variable numberToString : Q -> string.
Variable clock : nat -> Q.
Local Open Scope Q_scope.




End LaunchTime.

(** * Beyond the claims: what [App] shows *)

Lemma filter_fmap_length {A B} `{EqDecision B} (f : A -> B) (b : B) (l : list A) :
  length (filter (fun a => f a = b) l) =
    length (filter (fun b' => b' = b) (f <$> l)).
Proof.
  induction l as [|a l IH]; [done|].
  rewrite fmap_cons, !filter_cons.
  destruct (decide (f a = b)); simpl; by rewrite IH.
Qed.

Section Screens.
Variable random : nat -> Q.
Variable clock : nat -> Q.
Variable localeCompare : string -> string -> Q.

Lemma filteredTokens_sorted_length activeTab tokens sortState :
  length (filteredTokens activeTab (sortedTokens localeCompare tokens sortState))
  = tabCount (tokenCounts tokens) activeTab.
Proof.
  assert (Hperm : sortedTokens localeCompare tokens sortState ≡ₚ tokens).
  { unfold sortedTokens. destruct (SortState.key sortState); [|done].
    apply arraySort_perm. }
  destruct activeTab as [|stage].
  - rewrite tabCount_All. unfold filteredTokens. simpl. by rewrite Hperm.
  - rewrite tabCount_stage, filteredTokens_stage. by rewrite Hperm.
Qed.

(** X25. The empty-state message is shown exactly when there is no error, the
    table is loaded, and the count on the active tab is 0; the sort state
    and the observations play no part. *)
Theorem App_empty_state (st : Hook.t) (priceHistory : gmap string PriceState.t)
    (sortState : SortState.t) (activeTab : Tab) :
  App localeCompare st priceHistory sortState activeTab
    = Table (EmptyState activeTab) <->
  truthy (Hook.error st) = false /\
  Hook.loading st = false /\
  tabCount (tokenCounts (Hook.data st)) activeTab = 0%nat.
Proof.
  unfold App, tableBody.
  rewrite <- (filteredTokens_sorted_length activeTab (Hook.data st) sortState).
  destruct (truthy (Hook.error st)); [split; [done | by intros [? _]]|].
  destruct (Hook.loading st); [split; [done | by intros (_ & ? & _)]|].
  destruct (decide (length (filteredTokens activeTab
              (sortedTokens localeCompare (Hook.data st) sortState)) = 0%nat))
    as [Hlen|Hlen].
  - by rewrite bool_decide_eq_true_2.
  - rewrite bool_decide_eq_false_2 by done.
    split; [done | by intros (_ & _ & ?)].
Qed.

(** X26. What the user sees in the states the hook reaches: never the error
    screen and never the empty-state message. While loading, the skeleton;
    once loaded, under every sort state, fifteen rows on the tab 'All' and
    five on each stage tab, each row with the observation stored under its
    id. *)
Theorem App_reachable (st : Hook.t) (e : Env) (sortState : SortState.t)
    (activeTab : Tab) :
  reachable random clock st e ->
  (Hook.loading st = true /\
   App localeCompare st (history e) sortState activeTab = Table Skeleton) \/
  (Hook.loading st = false /\
   exists rows,
     App localeCompare st (history e) sortState activeTab
       = Table (DataRows rows) /\
     length rows = (match activeTab with TabAll => 15 | TabStatus _ => 5 end)%nat /\
     Forall (fun row => history e !! Token.id row.1 = Some row.2) rows).
Proof.
  intros Hreach.
  pose proof (reachable_dom random clock st e Hreach) as Hdom.
  destruct (reachable_frame random clock Token.status st e ltac:(done) Hreach)
    as (Herror & [[Hl Hempty]|(Hl & e0 & Hstatuses)]).
  { left. split; [done|]. unfold App. by rewrite Herror, Hl. }
  right. split; [done|].
  rewrite mockTokens_statuses in Hstatuses.
  set (shown := filteredTokens activeTab
                  (sortedTokens localeCompare (Hook.data st) sortState)).
  assert (Hlen : length shown =
            (match activeTab with TabAll => 15 | TabStatus _ => 5 end)%nat).
  { unfold shown. rewrite filteredTokens_sorted_length.
    destruct activeTab as [|stage].
    - rewrite tabCount_All, <- (length_fmap Token.status), Hstatuses. reflexivity.
    - rewrite tabCount_stage, filter_fmap_length, Hstatuses.
      by destruct stage. }
  exists ((fun token => (token, rowPriceState (history e) token)) <$> shown).
  split; [|split].
  - unfold App, tableBody. fold shown. rewrite Herror, Hl. simpl.
    rewrite bool_decide_eq_false_2; [done|].
    rewrite Hlen. by destruct activeTab.
  - by rewrite length_fmap.
  - apply Forall_fmap, Forall_forall. intros token Hin. simpl.
    assert (Hdata : token ∈ Hook.data st).
    { unfold shown, filteredTokens in Hin.
      destruct (decide (activeTab = TabAll));
        [|apply list_elem_of_filter in Hin as [_ Hin]].
      all: unfold sortedTokens in Hin;
        destruct (SortState.key sortState); [|done];
        by rewrite arraySort_perm in Hin. }
    assert (is_Some (history e !! Token.id token)) as [priceState Hps].
    { apply elem_of_dom. rewrite Hdom, elem_of_list_to_set.
      by apply list_elem_of_fmap_2. }
    unfold rowPriceState. by rewrite Hps.
Qed.
End Screens.

Lemma App_reachable_witness :
  reachable sampleRandom sampleClock sampleTicked.1 sampleTicked.2 /\
  ((Hook.loading sampleTicked.1 = true /\
    App codeCompare sampleTicked.1 (history sampleTicked.2) initialSortState
      (TabStatus Migrated) = Table Skeleton) \/
   (Hook.loading sampleTicked.1 = false /\
    exists rows,
      App codeCompare sampleTicked.1 (history sampleTicked.2) initialSortState
        (TabStatus Migrated) = Table (DataRows rows) /\
      length rows = 5%nat /\
      Forall (fun row => history sampleTicked.2 !! Token.id row.1 = Some row.2)
        rows)).
Proof.
  split; [exact sampleTicked_reachable|].
  apply (App_reachable sampleRandom sampleClock codeCompare
           sampleTicked.1 sampleTicked.2 initialSortState (TabStatus Migrated)).
  exact sampleTicked_reachable.
Defined.

(** * Beyond the claims: the load and the default order *)

Section Load.

Lemma record_fold_other (m : gmap string PriceState.t) mock (k : string) :
  k ∉ Token.id <$> mock -> foldl recordInitial m mock !! k = m !! k.
Proof.
  revert m; induction mock as [|token mock IH]; intros m Hk; [done|].
  rewrite fmap_cons, not_elem_of_cons in Hk. destruct Hk as [Hne Hk].
  simpl. rewrite IH by done. unfold recordInitial. by rewrite lookup_insert_ne.
Qed.

(** X6. Right after the load every row is neutral: when the ids of the loaded
    list are distinct, the observation of each record holds the record's own
    price with the trend [neutral], so its row has no percentage and is
    white. *)
Theorem initialLoad_neutral (toFixed : Number -> nat -> string)
    (mock : list Token.t) (e : Env) (token : Token.t) :
  NoDup (Token.id <$> mock) ->
  token ∈ mock ->
  rowPriceState (history (initialLoad mock e).2) token
    = PriceState.mk (Token.priceUSD token) neutral /\
  priceDiffText toFixed token
    (rowPriceState (history (initialLoad mock e).2) token) = "" /\
  priceColorClass (rowPriceState (history (initialLoad mock e).2) token)
    = "text-white bg-transparent".
Proof.
  intros Hnodup Hin.
  assert (Hlookup : history (initialLoad mock e).2 !! Token.id token
                    = Some (PriceState.mk (Token.priceUSD token) neutral)).
  { rewrite initialLoad_run. cbn [snd history]. fold recordInitial.
    generalize (∅ : gmap string PriceState.t).
    induction mock as [|a mock IH]; intros m; [by apply elem_of_nil in Hin|].
    rewrite fmap_cons in Hnodup. apply NoDup_cons in Hnodup as [Ha Hnodup].
    simpl. apply elem_of_cons in Hin as [->|Hin].
    - rewrite record_fold_other by done. unfold recordInitial.
      apply lookup_insert_eq.
    - by apply IH. }
  unfold rowPriceState. rewrite Hlookup.
  split; [reflexivity|]. split; [|reflexivity].
  unfold priceDiffText. cbn [PriceState.trend].
  rewrite bool_decide_eq_true_2 by done. by rewrite orb_true_r.
Qed.
End Load.

Lemma initialLoad_neutral_witness :
  NoDup (Token.id <$> [sampleToken "a" NewPairs 2; sampleToken "b" Migrated 3]) /\
  sampleToken "b" Migrated 3
    ∈ [sampleToken "a" NewPairs 2; sampleToken "b" Migrated 3] /\
  rowPriceState
    (history (initialLoad [sampleToken "a" NewPairs 2; sampleToken "b" Migrated 3]
                emptyEnv).2)
    (sampleToken "b" Migrated 3)
    = PriceState.mk (Token.priceUSD (sampleToken "b" Migrated 3)) neutral /\
  priceDiffText (fun _ _ => "0.00") (sampleToken "b" Migrated 3)
    (rowPriceState
       (history (initialLoad
                   [sampleToken "a" NewPairs 2; sampleToken "b" Migrated 3]
                   emptyEnv).2)
       (sampleToken "b" Migrated 3)) = "" /\
  priceColorClass
    (rowPriceState
       (history (initialLoad
                   [sampleToken "a" NewPairs 2; sampleToken "b" Migrated 3]
                   emptyEnv).2)
       (sampleToken "b" Migrated 3))
    = "text-white bg-transparent".
Proof.
  assert (Hnodup : NoDup (Token.id <$>
            [sampleToken "a" NewPairs 2; sampleToken "b" Migrated 3])).
  { apply (bool_decide_unpack _). vm_compute. exact I. }
  assert (Hin : sampleToken "b" Migrated 3
                  ∈ [sampleToken "a" NewPairs 2; sampleToken "b" Migrated 3])
    by repeat constructor.
  split; [exact Hnodup|]. split; [exact Hin|].
  exact (initialLoad_neutral (fun _ _ => "0.00"%string) _ emptyEnv _ Hnodup Hin).
Defined.

Section Footprint.
Variable random : nat -> Q.

(** X7. The footprint of a period: two draws for each record and no reading of
    the clock; a skipped period (still loading, or nothing loaded) makes no
    draw at all. *)
Theorem wsMockInterval_footprint (st : Hook.t) (e : Env) :
  draws (wsMockInterval random st e).2 =
    (if Hook.loading st then draws e
     else draws e + 2 * length (Hook.data st))%nat /\
  reads (wsMockInterval random st e).2 = reads e /\
  length (Hook.data (wsMockInterval random st e).1) = length (Hook.data st) /\
  Hook.loading (wsMockInterval random st e).1 = Hook.loading st.
Proof.
  rewrite wsMockInterval_run.
  destruct (Hook.loading st) eqn:Hl; simpl; [done|].
  destruct (decide (length (Hook.data st) = 0%nat)) as [Hlen|Hlen].
  - rewrite bool_decide_eq_true_2 by done. rewrite Hlen. simpl.
    repeat split; [lia | done..].
  - rewrite bool_decide_eq_false_2 by done. cbn [fst snd Hook.data Hook.loading].
    by rewrite tick_draws, tick_reads, tick_length.
Qed.
End Footprint.

Lemma sortInsert_fmap {A B} (g : A -> B) (cmp : A -> A -> Q)
    (cmp' : B -> B -> Q) a l :
  (forall a b, cmp a b = cmp' (g a) (g b)) ->
  g <$> sortInsert cmp a l = sortInsert cmp' (g a) (g <$> l).
Proof.
  intros Hg. induction l as [|b l IH]; [done|].
  rewrite fmap_cons. simpl sortInsert. rewrite <- Hg.
  destruct (Qlt_le_dec 0 (cmp a b)); [|done].
  by rewrite fmap_cons, IH.
Qed.

Lemma arraySort_fmap {A B} (g : A -> B) (cmp : A -> A -> Q)
    (cmp' : B -> B -> Q) l :
  (forall a b, cmp a b = cmp' (g a) (g b)) ->
  g <$> arraySort cmp l = arraySort cmp' (g <$> l).
Proof.
  intros Hg. induction l as [|a l IH]; [done|].
  rewrite fmap_cons. simpl arraySort.
  by rewrite (sortInsert_fmap g cmp cmp'), IH.
Qed.

Section DefaultOrder.
Variable random : nat -> Q.
Variable clock : nat -> Q.
Variable localeCompare : string -> string -> Q.

Lemma mockTokens_caps e0 :
  (fun token => (Token.id token, Token.marketCap token))
    <$> (mockTokens random clock e0).1
  = (fun i => ("token-" +:+ pretty i, (1000000 + ofNat i * 500000)%Q))
      <$> seq 0 15.
Proof. vm_compute. reflexivity. Qed.

(** X17. The default order does not move. Once loaded, and however the prices
    have moved since, the table sorted by the initial sort state (market
    capitalisation, descending) lists the records from token-14 down to
    token-0. *)
Theorem default_order (st : Hook.t) (e : Env) :
  reachable random clock st e ->
  Hook.loading st = false ->
  Token.id <$> sortedTokens localeCompare (Hook.data st) initialSortState
    = reverse mockIds.
Proof.
  intros Hreach Hloaded.
  destruct (reachable_frame random clock
              (fun token => (Token.id token, Token.marketCap token))
              st e (fun _ _ _ => eq_refl) Hreach)
    as (_ & [[Hl _]|(_ & e0 & Hcaps)]); [congruence|].
  rewrite mockTokens_caps in Hcaps.
  unfold sortedTokens, initialSortState; simpl.
  transitivity
    (fst <$>
       ((fun token => (Token.id token, Token.marketCap token)) <$>
          arraySort (compareTokens localeCompare KmarketCap desc) (Hook.data st))).
  { rewrite <- list_fmap_compose. reflexivity. }
  rewrite (arraySort_fmap _ _ (fun p q : string * Q => (- (p.2 - q.2))%Q))
    by reflexivity.
  rewrite Hcaps. vm_compute. reflexivity.
Qed.
End DefaultOrder.

Lemma wsMockInterval_loading random st e :
  Hook.loading (wsMockInterval random st e).1 = Hook.loading st.
Proof.
  rewrite wsMockInterval_run.
  by destruct (Hook.loading st || bool_decide (length (Hook.data st) = 0%nat)).
Qed.

Lemma initialLoad_loading mock e : Hook.loading (initialLoad mock e).1 = false.
Proof. reflexivity. Qed.

Lemma sampleTicked_loaded : Hook.loading sampleTicked.1 = false.
Proof.
  unfold sampleTicked, sampleLoaded.
  rewrite wsMockInterval_loading. apply initialLoad_loading.
Qed.

Lemma default_order_witness :
  reachable sampleRandom sampleClock sampleTicked.1 sampleTicked.2 /\
  Hook.loading sampleTicked.1 = false /\
  Token.id <$> sortedTokens codeCompare (Hook.data sampleTicked.1) initialSortState
    = reverse mockIds.
Proof.
  split; [exact sampleTicked_reachable|]. split; [exact sampleTicked_loaded|].
  exact (default_order sampleRandom sampleClock codeCompare
           sampleTicked.1 sampleTicked.2
           sampleTicked_reachable sampleTicked_loaded).
Defined.

(** X1. The part of the mock list that no draw decides. For every index [i]
    below 15 the record at [i] has the id token-i, the name and the symbol
    numbered [i + 1], the chain at position [i mod 3] of ETH, BSC, SOL (it is
    the chain that goes round-robin), and a market capitalisation, a volume
    and a liquidity that grow linearly with [i]. *)
Theorem mockTokens_structure (random clock : nat -> Q) (e : Env) (i : nat) :
  i < 15 ->
  exists token,
    (mockTokens random clock e).1 !! i = Some token /\
    Token.id token = "token-" +:+ pretty i /\
    Token.name token = "Axiom Token " +:+ pretty (i + 1) /\
    Token.symbol token = "AXM" +:+ pretty (i + 1) /\
    Token.pair token = "WETH/AXM" +:+ pretty (i + 1) /\
    Some (Token.chain token) = [ETH; BSC; SOL] !! (i mod 3) /\
    (Token.marketCap token == 1000000 + ofNat i * 500000)%Q /\
    (Token.volume24h token == 100000 + ofNat i * 20000)%Q /\
    (Token.liquidity token == 50000 + ofNat i * 10000)%Q.
Proof.
  intros Hi.
  assert (Hfields :
    (fun token => (Token.id token, Token.name token, Token.symbol token,
                   Token.pair token, Token.chain token, Token.marketCap token,
                   Token.volume24h token, Token.liquidity token))
      <$> (mockTokens random clock e).1
    = (fun i => ("token-" +:+ pretty i, "Axiom Token " +:+ pretty (i + 1),
                 "AXM" +:+ pretty (i + 1), "WETH/AXM" +:+ pretty (i + 1),
                 default ETH ([ETH; BSC; SOL] !! (i mod 3)),
                 (1000000 + ofNat i * 500000)%Q,
                 (100000 + ofNat i * 20000)%Q,
                 (50000 + ofNat i * 10000)%Q))
        <$> seq 0 15).
  { vm_compute. reflexivity. }
  apply (f_equal (fun l => l !! i)) in Hfields.
  rewrite !list_lookup_fmap, lookup_seq_lt in Hfields by done.
  destruct ((mockTokens random clock e).1 !! i) as [token|]; [|done].
  exists token. simpl in Hfields. injection Hfields as -> -> -> -> -> -> -> ->.
  repeat split; try reflexivity.
  do 15 (destruct i as [|i]; [reflexivity|]). lia.
Qed.

Lemma mockTokens_structure_witness :
  7 < 15 /\
  exists token,
    (mockTokens sampleRandom sampleClock emptyEnv).1 !! 7 = Some token /\
    Token.id token = "token-" +:+ pretty 7 /\
    Token.name token = "Axiom Token " +:+ pretty (7 + 1) /\
    Token.symbol token = "AXM" +:+ pretty (7 + 1) /\
    Token.pair token = "WETH/AXM" +:+ pretty (7 + 1) /\
    Some (Token.chain token) = [ETH; BSC; SOL] !! (7 mod 3) /\
    (Token.marketCap token == 1000000 + ofNat 7 * 500000)%Q /\
    (Token.volume24h token == 100000 + ofNat 7 * 20000)%Q /\
    (Token.liquidity token == 50000 + ofNat 7 * 10000)%Q.
Proof.
  split; [lia|].
  apply (mockTokens_structure sampleRandom sampleClock emptyEnv 7). lia.
Defined.

(** * The tick in binary64 *)

(** ** Rounding to the nearest double *)

Section Rounding.
Local Open Scope Q_scope.

Lemma pow2_pos e : 0 < 2 ^ e.
Proof. by apply Qpower_0_lt. Qed.

Lemma pow2_plus a b : 2 ^ (a + b) == 2 ^ a * 2 ^ b.
Proof. apply Qpower_plus. discriminate. Qed.

Lemma pow2_succ e : 2 ^ (e + 1) == 2 ^ e * 2.
Proof. by rewrite pow2_plus. Qed.

Lemma pow2_le a b : (a <= b)%Z -> 2 ^ a <= 2 ^ b.
Proof. intros H. apply Qpower_le_compat_l; [done | discriminate]. Qed.

Lemma pow2_lt_inv a b : 2 ^ a < 2 ^ b -> (a < b)%Z.
Proof. intros H. by apply (Qpower_lt_compat_l_inv 2). Qed.

Lemma pow2_log2 (n : Z) :
  (0 < n)%Z -> 2 ^ Z.log2 n <= inject_Z n /\ inject_Z n < 2 ^ Z.log2 n * 2.
Proof.
  intros Hn. destruct (Z.log2_spec n Hn) as [Hlo Hhi].
  pose proof (Z.log2_nonneg n) as Hnn.
  rewrite <- pow2_succ.
  assert (H1 : 2 ^ Z.log2 n == inject_Z (2 ^ Z.log2 n))
    by (symmetry; apply (Zpower_Qpower 2); lia).
  assert (H2 : 2 ^ (Z.log2 n + 1) == inject_Z (2 ^ (Z.log2 n + 1)))
    by (symmetry; apply (Zpower_Qpower 2); lia).
  rewrite H1, H2, <- Zle_Qle, <- Zlt_Qlt.
  split; [done|]. by rewrite <- Z.add_1_r in Hhi.
Qed.

(** [ilog2] is the exponent. *)
Lemma ilog2_spec x : 0 < x -> 2 ^ ilog2 x <= x /\ x < 2 ^ (ilog2 x + 1).
Proof.
  intros Hx. unfold ilog2.
  destruct x as [n d]. cbn [Qnum Qden].
  assert (Hn : (0 < n)%Z) by (unfold Qlt in Hx; simpl in Hx; lia).
  destruct (pow2_log2 n Hn) as [Hn1 Hn2].
  destruct (pow2_log2 (Z.pos d) ltac:(done)) as [Hd1 Hd2].
  set (ln := Z.log2 n) in *. set (ld := Z.log2 (Z.pos d)) in *.
  assert (HP : 2 ^ ln == 2 ^ (ln - ld) * 2 ^ ld).
  { rewrite <- pow2_plus. by replace (ln - ld + ld)%Z with ln by lia. }
  pose proof (pow2_pos (ln - ld)) as HE. pose proof (pow2_pos ld) as HR.
  set (E := 2 ^ (ln - ld)) in *. set (R := 2 ^ ld) in *. set (P := 2 ^ ln) in *.
  assert (HN : inject_Z n == (n # d) * inject_Z (Z.pos d)).
  { rewrite (Qmake_Qdiv n d). field. discriminate. }
  set (x := n # d) in *. set (N := inject_Z n) in *. set (D := inject_Z (Z.pos d)) in *.
  assert (HD : 0 < D) by reflexivity.
  destruct (Qlt_le_dec x E) as [Hlt|Hle].
  - replace (ln - ld - 1 + 1)%Z with (ln - ld)%Z by lia. split; [|done].
    assert (H2 : 2 ^ (ln - ld - 1) * 2 == E).
    { rewrite <- pow2_succ. by replace (ln - ld - 1 + 1)%Z with (ln - ld)%Z by lia. }
    pose proof (pow2_pos (ln - ld - 1)) as HE'.
    set (E' := 2 ^ (ln - ld - 1)) in *.
    apply Qnot_lt_le. intros Hc. nra.
  - split; [done|]. rewrite pow2_succ. fold E.
    apply Qnot_le_lt. intros Hc. nra.
Qed.

Lemma roundHalfEven_bounds q :
  (Qfloor q <= roundHalfEven q <= Qfloor q + 1)%Z.
Proof.
  unfold roundHalfEven.
  destruct (Qlt_le_dec (q - inject_Z (Qfloor q)) (1 # 2)); [lia|].
  destruct (Qlt_le_dec (1 # 2) (q - inject_Z (Qfloor q))); [lia|].
  destruct (Z.even (Qfloor q)); lia.
Qed.

(** The nearest integer is at most one half away. *)
Lemma roundHalfEven_near q :
  q - (1 # 2) <= inject_Z (roundHalfEven q) /\
  inject_Z (roundHalfEven q) <= q + (1 # 2).
Proof.
  pose proof (Qfloor_le q) as Hlo. pose proof (Qlt_floor q) as Hhi.
  rewrite inject_Z_plus in Hhi. change (inject_Z 1) with 1 in Hhi.
  unfold roundHalfEven.
  destruct (Qlt_le_dec (q - inject_Z (Qfloor q)) (1 # 2)); [lra|].
  destruct (Qlt_le_dec (1 # 2) (q - inject_Z (Qfloor q))).
  { rewrite inject_Z_plus. change (inject_Z 1) with 1. lra. }
  destruct (Z.even (Qfloor q)); [lra|].
  rewrite inject_Z_plus. change (inject_Z 1) with 1. lra.
Qed.

Lemma roundHalfEven_ge q (m : Z) : inject_Z m <= q -> (m <= roundHalfEven q)%Z.
Proof.
  intros H. apply Qfloor_resp_le in H. rewrite Qfloor_Z in H.
  pose proof (roundHalfEven_bounds q). lia.
Qed.

Lemma roundHalfEven_le q (m : Z) : q <= inject_Z m -> (roundHalfEven q <= m)%Z.
Proof.
  intros H. pose proof (roundHalfEven_bounds q) as Hb.
  pose proof (Qfloor_resp_le _ _ H) as Hf. rewrite Qfloor_Z in Hf.
  destruct (Z.eq_dec (Qfloor q) m) as [Heq|Hne]; [|lia].
  unfold roundHalfEven. pose proof (Qfloor_le q) as Hfl. rewrite Heq in *.
  destruct (Qlt_le_dec (q - inject_Z m) (1 # 2)); [lia | lra].
Qed.

Lemma roundHalfEven_mono q1 q2 :
  q1 <= q2 -> (roundHalfEven q1 <= roundHalfEven q2)%Z.
Proof.
  intros H. pose proof (Qfloor_resp_le _ _ H) as Hf.
  pose proof (roundHalfEven_bounds q1) as H1.
  pose proof (roundHalfEven_bounds q2) as H2.
  destruct (Z.eq_dec (Qfloor q1) (Qfloor q2)) as [Heq|Hne]; [|lia].
  unfold roundHalfEven. rewrite Heq.
  destruct (Qlt_le_dec (q1 - inject_Z (Qfloor q2)) (1 # 2)).
  { destruct (Qlt_le_dec (q2 - inject_Z (Qfloor q2)) (1 # 2)); [lia|].
    destruct (Qlt_le_dec (1 # 2) (q2 - inject_Z (Qfloor q2))); [lia|].
    destruct (Z.even (Qfloor q2)); lia. }
  destruct (Qlt_le_dec (q2 - inject_Z (Qfloor q2)) (1 # 2)); [lra|].
  destruct (Qlt_le_dec (1 # 2) (q1 - inject_Z (Qfloor q2))).
  { destruct (Qlt_le_dec (1 # 2) (q2 - inject_Z (Qfloor q2))); [lia | lra]. }
  destruct (Qlt_le_dec (1 # 2) (q2 - inject_Z (Qfloor q2)));
    destruct (Z.even (Qfloor q2)); lia.
Qed.

Lemma pow2_52 : 2 ^ 52 == inject_Z 4503599627370496.
Proof. reflexivity. Qed.

(** A rounded number stays in the binade of its argument, upper end
    included. *)
Lemma roundPos_bounds x :
  0 < x -> 2 ^ ilog2 x <= roundPos x /\ roundPos x <= 2 ^ (ilog2 x + 1).
Proof.
  intros Hx. destruct (ilog2_spec x Hx) as [Hlo Hhi]. unfold roundPos.
  set (e := ilog2 x) in *.
  pose proof (pow2_pos (52 - e)) as Hs. pose proof (pow2_pos (e - 52)) as Ht.
  assert (H52 : 2 ^ e * 2 ^ (52 - e) == inject_Z 4503599627370496).
  { rewrite <- pow2_plus, <- pow2_52. by replace (e + (52 - e))%Z with 52%Z by lia. }
  assert (Hback : inject_Z 4503599627370496 * 2 ^ (e - 52) == 2 ^ e).
  { rewrite <- pow2_52, <- pow2_plus. by replace (52 + (e - 52))%Z with e by lia. }
  assert (Hge : (4503599627370496 <= roundHalfEven (x * 2 ^ (52 - e)))%Z).
  { apply roundHalfEven_ge. rewrite <- H52. by apply Qmult_le_compat_r; [|lra]. }
  assert (Hle : (roundHalfEven (x * 2 ^ (52 - e)) <= 2 * 4503599627370496)%Z).
  { apply roundHalfEven_le. rewrite inject_Z_mult, <- H52.
    rewrite pow2_succ in Hhi.
    change (inject_Z 2) with 2.
    assert (Hr : 2 * (2 ^ e * 2 ^ (52 - e)) == 2 ^ e * 2 * 2 ^ (52 - e)) by ring.
    rewrite Hr. apply Qmult_le_compat_r; lra. }
  rewrite Zle_Qle in Hge, Hle. rewrite inject_Z_mult in Hle.
  change (inject_Z 2) with 2 in Hle.
  set (m := inject_Z (roundHalfEven (x * 2 ^ (52 - e)))) in *.
  split.
  - rewrite <- Hback. apply Qmult_le_compat_r; lra.
  - rewrite pow2_succ, <- Hback.
    assert (Hr : inject_Z 4503599627370496 * 2 ^ (e - 52) * 2
                 == 2 * inject_Z 4503599627370496 * 2 ^ (e - 52)) by ring.
    rewrite Hr. apply Qmult_le_compat_r; lra.
Qed.

Lemma roundPos_pos x : 0 < x -> 0 < roundPos x.
Proof.
  intros Hx. destruct (roundPos_bounds x Hx) as [H _].
  pose proof (pow2_pos (ilog2 x)). lra.
Qed.

Lemma roundPos_mono x y : 0 < x -> x <= y -> roundPos x <= roundPos y.
Proof.
  intros Hx Hxy. assert (Hy : 0 < y) by lra.
  destruct (ilog2_spec x Hx) as [Hxl Hxh].
  destruct (ilog2_spec y Hy) as [Hyl Hyh].
  assert (He : (ilog2 x < ilog2 y + 1)%Z) by (apply pow2_lt_inv; lra).
  destruct (Z.eq_dec (ilog2 x) (ilog2 y)) as [Heq|Hne].
  - unfold roundPos. rewrite Heq.
    pose proof (pow2_pos (52 - ilog2 y)). pose proof (pow2_pos (ilog2 y - 52)).
    apply Qmult_le_compat_r; [|lra].
    rewrite <- Zle_Qle. apply roundHalfEven_mono.
    apply Qmult_le_compat_r; lra.
  - destruct (roundPos_bounds x Hx) as [_ Hx2].
    destruct (roundPos_bounds y Hy) as [Hy1 _].
    assert (2 ^ (ilog2 x + 1) <= 2 ^ ilog2 y) by (apply pow2_le; lia).
    lra.
Qed.

(** Rounding is monotone. *)
Lemma round64_mono x y : x <= y -> round64 x <= round64 y.
Proof.
  intros Hxy. unfold round64.
  destruct (Qlt_le_dec 0 x) as [Hx|Hx].
  { destruct (Qlt_le_dec 0 y); [by apply roundPos_mono | lra]. }
  destruct (Qlt_le_dec x 0) as [Hx'|Hx'].
  - assert (0 < roundPos (- x)) by (apply roundPos_pos; lra).
    destruct (Qlt_le_dec 0 y) as [Hy|Hy].
    { pose proof (roundPos_pos y Hy). lra. }
    destruct (Qlt_le_dec y 0) as [Hy'|Hy']; [|lra].
    assert (roundPos (- y) <= roundPos (- x)) by (apply roundPos_mono; lra).
    lra.
  - destruct (Qlt_le_dec 0 y) as [Hy|Hy].
    { pose proof (roundPos_pos y Hy). lra. }
    destruct (Qlt_le_dec y 0); lra.
Qed.

(** One rounding moves a positive number by at most the fraction [2 ^ -53]
    of it. *)
Lemma roundPos_rel x :
  0 < x -> x * (1 - halfUlp) <= roundPos x /\ roundPos x <= x * (1 + halfUlp).
Proof.
  intros Hx. destruct (ilog2_spec x Hx) as [Hlo _]. unfold roundPos.
  set (e := ilog2 x) in *.
  pose proof (pow2_pos (52 - e)) as Hs. pose proof (pow2_pos (e - 52)) as Ht.
  pose proof (pow2_pos e) as He.
  assert (Hst : 2 ^ (52 - e) * 2 ^ (e - 52) == 1).
  { rewrite <- pow2_plus. by replace (52 - e + (e - 52))%Z with 0%Z by lia. }
  assert (Hback : inject_Z 4503599627370496 * 2 ^ (e - 52) == 2 ^ e).
  { rewrite <- pow2_52, <- pow2_plus. by replace (52 + (e - 52))%Z with e by lia. }
  change (inject_Z 4503599627370496) with 4503599627370496 in Hback.
  destruct (roundHalfEven_near (x * 2 ^ (52 - e))) as [Hn1 Hn2].
  set (n := inject_Z (roundHalfEven (x * 2 ^ (52 - e)))) in *.
  set (s := 2 ^ (52 - e)) in *. set (t := 2 ^ (e - 52)) in *.
  set (P := 2 ^ e) in *. unfold halfUlp.
  assert (H1 : 0 <= (n - (x * s - (1 # 2))) * t) by (apply Qmult_le_0_compat; lra).
  assert (H2 : 0 <= (x * s + (1 # 2) - n) * t) by (apply Qmult_le_0_compat; lra).
  assert (Hx1 : x * s * t == x) by (rewrite <- Qmult_assoc, Hst; ring).
  split.
  - assert (Hr : (n - (x * s - (1 # 2))) * t == n * t - x * s * t + (1 # 2) * t) by ring.
    rewrite Hr, Hx1 in H1.
    assert (Hg : x * (1 - (1 # 9007199254740992)) == x - x * (1 # 9007199254740992)) by ring.
    rewrite Hg. lra.
  - assert (Hr : (x * s + (1 # 2) - n) * t == x * s * t + (1 # 2) * t - n * t) by ring.
    rewrite Hr, Hx1 in H2.
    assert (Hg : x * (1 + (1 # 9007199254740992)) == x + x * (1 # 9007199254740992)) by ring.
    rewrite Hg. lra.
Qed.

(** The same of either sign: rounding multiplies by [1 + d] for some [d] of
    magnitude at most [2 ^ -53]. *)
Lemma round64_rel x :
  exists d, - halfUlp <= d /\ d <= halfUlp /\ round64 x == x * (1 + d).
Proof.
  unfold round64.
  destruct (Qlt_le_dec 0 x) as [Hx|Hx].
  - destruct (roundPos_rel x Hx) as [H1 H2].
    exists (roundPos x / x - 1).
    assert (Hne : ~ x == 0) by lra.
    assert (Hd : roundPos x / x * x == roundPos x) by (field; exact Hne).
    unfold halfUlp in *.
    split; [|split].
    + apply Qnot_lt_le. intros Hc. nra.
    + apply Qnot_lt_le. intros Hc. nra.
    + field. exact Hne.
  - destruct (Qlt_le_dec x 0) as [Hx'|Hx'].
    + destruct (roundPos_rel (- x) ltac:(lra)) as [H1 H2].
      exists (roundPos (- x) / (- x) - 1).
      assert (Hne : ~ x == 0) by lra.
      assert (Hd : roundPos (- x) / (- x) * (- x) == roundPos (- x))
        by (field; exact Hne).
      unfold halfUlp in *.
      split; [|split].
      * apply Qnot_lt_le. intros Hc. nra.
      * apply Qnot_lt_le. intros Hc. nra.
      * field. exact Hne.
    + exists 0. unfold halfUlp. split; [lra|]. split; [lra|].
      assert (Hz : x == 0) by lra. rewrite Hz. ring.
Qed.
End Rounding.

(** ** The multipliers *)

Section FactorFacts.
Local Open Scope Q_scope.

(** A larger draw gives a larger multiplier, rounding included. *)
Lemma priceFactor64_mono r r' :
  r <= r' -> priceFactor64 r <= priceFactor64 r'.
Proof.
  intros H. unfold priceFactor64. apply round64_mono.
  apply Qplus_le_r. apply round64_mono.
  apply Qmult_le_compat_r; [|by vm_compute].
  apply round64_mono. lra.
Qed.

Lemma volumeFactor64_mono r r' :
  r <= r' -> volumeFactor64 r <= volumeFactor64 r'.
Proof.
  intros H. unfold volumeFactor64. apply round64_mono.
  apply Qplus_le_r. apply round64_mono.
  apply Qmult_le_compat_r; [|by vm_compute].
  apply round64_mono. lra.
Qed.

(** At the ends of the range of the draws the multipliers are the doubles
    nearest to the decimal bounds. *)
Lemma priceFactor64_ends :
  priceFactor64 0 == round64 0.99 /\ priceFactor64 1 == round64 1.01.
Proof. split; vm_compute; reflexivity. Qed.

Lemma volumeFactor64_ends :
  volumeFactor64 0 == round64 0.975 /\ volumeFactor64 1 == round64 1.025.
Proof. split; vm_compute; reflexivity. Qed.

(** None of the four decimal bounds is a double; the doubles nearest to them
    lie at these distances. *)
Lemma decimal_bounds_rounded :
  0.99 - round64 0.99 == 1 # 112589990684262400 /\
  round64 1.01 - 1.01 == 1 # 112589990684262400 /\
  0.975 - round64 0.975 == 1 # 45035996273704960 /\
  1.025 - round64 1.025 == 1 # 11258999068426240.
Proof. repeat split; vm_compute; reflexivity. Qed.

Lemma priceFactor64_bounds r :
  0 <= r <= 1 -> round64 0.99 <= priceFactor64 r <= round64 1.01.
Proof.
  intros [H0 H1]. destruct priceFactor64_ends as [E0 E1].
  rewrite <- E0, <- E1. split; by apply priceFactor64_mono.
Qed.

Lemma volumeFactor64_bounds r :
  0 <= r <= 1 -> round64 0.975 <= volumeFactor64 r <= round64 1.025.
Proof.
  intros [H0 H1]. destruct volumeFactor64_ends as [E0 E1].
  rewrite <- E0, <- E1. split; by apply volumeFactor64_mono.
Qed.

(** A product with a multiplier [m], rounded, is the exact product with a
    multiplier within [2 ^ -53 * m] of [m]. *)
Lemma round64_product x m lo hi :
  0 < lo -> lo <= m <= hi ->
  exists f, round64 (x * m) == x * f /\
            lo * (1 - halfUlp) <= f <= hi * (1 + halfUlp).
Proof.
  intros Hlo [Hm1 Hm2].
  destruct (round64_rel (x * m)) as (d & Hd1 & Hd2 & Hd).
  exists (m * (1 + d)). split; [rewrite Hd; ring|].
  unfold halfUlp in *. split; nra.
Qed.
End FactorFacts.

(** ** How [tickWith] runs *)

Section MachineFacts.
Variable fl : Q -> Q.
Variable random : nat -> Q.

Lemma updateTokenWith_run token e :
  (updateTokenWith fl random token e).1 =
    perturbWith fl token (random (draws e)) (random (S (draws e))) /\
  draws (updateTokenWith fl random token e).2 = S (S (draws e)).
Proof. split; reflexivity. Qed.

Lemma tickWith_cons token data e :
  tickWith fl random (token :: data) e =
    let '(token', e1) := updateTokenWith fl random token e in
    let '(data', e2) := tickWith fl random data e1 in
    (token' :: data', e2).
Proof. reflexivity. Qed.

(** As [tick_lookup]: the i-th record of the result is the i-th record of the
    input, perturbed with the draws number [2 i] and [2 i + 1] of this tick. *)
Lemma tickWith_lookup data e i token :
  data !! i = Some token ->
  (tickWith fl random data e).1 !! i =
    Some (perturbWith fl token (random (draws e + 2 * i)%nat)
                               (random (draws e + 2 * i + 1)%nat)).
Proof.
  revert e i; induction data as [|a data IH]; intros e i Hi; [done|].
  rewrite tickWith_cons.
  destruct (updateTokenWith_run a e) as [Ha He].
  destruct (updateTokenWith fl random a e) as [a' e1]. simpl in Ha, He.
  destruct i as [|i]; simpl in Hi.
  - injection Hi as ->.
    destruct (tickWith fl random data e1) as [data' e2]. simpl.
    rewrite Ha. do 3 f_equal; lia.
  - specialize (IH e1 i Hi).
    destruct (tickWith fl random data e1) as [data' e2]. simpl in *.
    rewrite IH, He. do 3 f_equal; lia.
Qed.
End MachineFacts.

(** With no rounding the tick is [tick]. *)
Lemma tickWith_exact (random : nat -> Q) (data : list Token.t) (e : Env) :
  tickWith (fun x => x) random data e = tick random data e.
Proof. reflexivity. Qed.

(** ** The perturbation is bounded *)

Section TickBounds.
Local Open Scope Q_scope.

(** C7, as the machine computes it. For every list, every record of it whose
    price and volume are in the range of the normal doubles, and every two
    draws in [0, 1] made for it, one tick gives the record the price
    [round64 (price * m)] and the volume [round64 (volume * v)], where the
    multiplier [m] computed for the price lies between the doubles nearest to
    0.99 and to 1.01, and the multiplier [v] computed for the volume between
    the doubles nearest to 0.975 and to 1.025. None of these four doubles is
    its decimal ([decimal_bounds_rounded]), and the product is rounded once
    more: the new price is the old one times a factor in
    [0.99 - 2^-52, 1.01 + 2^-52], and the new volume is the old one times a
    factor in [0.975 - 2^-52, 1.025 + 2^-52]. *)
Theorem tick64_bounded_factors (random : nat -> Q) (data : list Token.t)
    (e : Env) (i : nat) (token : Token.t) :
  data !! i = Some token ->
  0 <= random (draws e + 2 * i)%nat <= 1 ->
  0 <= random (draws e + 2 * i + 1)%nat <= 1 ->
  inRange64 (Token.priceUSD token) ->
  inRange64 (Token.volume24h token) ->
  exists token' m v fp fv,
    (tick64 random data e).1 !! i = Some token' /\
    m = priceFactor64 (random (draws e + 2 * i)%nat) /\
    v = volumeFactor64 (random (draws e + 2 * i + 1)%nat) /\
    round64 0.99 <= m <= round64 1.01 /\
    round64 0.975 <= v <= round64 1.025 /\
    Token.priceUSD token' = round64 (Token.priceUSD token * m) /\
    Token.volume24h token' = round64 (Token.volume24h token * v) /\
    Token.priceUSD token' == Token.priceUSD token * fp /\
    0.99 - ulp <= fp <= 1.01 + ulp /\
    Token.volume24h token' == Token.volume24h token * fv /\
    0.975 - ulp <= fv <= 1.025 + ulp.
Proof.
  intros Hi Hr1 Hr2 _ _.
  set (r1 := random (draws e + 2 * i)%nat) in *.
  set (r2 := random (draws e + 2 * i + 1)%nat) in *.
  pose proof (priceFactor64_bounds r1 Hr1) as Hm.
  pose proof (volumeFactor64_bounds r2 Hr2) as Hv.
  destruct (round64_product (Token.priceUSD token) (priceFactor64 r1)
              (round64 0.99) (round64 1.01) ltac:(by vm_compute) Hm)
    as (fp & Hfp & Hfp1 & Hfp2).
  destruct (round64_product (Token.volume24h token) (volumeFactor64 r2)
              (round64 0.975) (round64 1.025) ltac:(by vm_compute) Hv)
    as (fv & Hfv & Hfv1 & Hfv2).
  exists (perturbWith round64 token r1 r2), (priceFactor64 r1),
    (volumeFactor64 r2), fp, fv.
  split; [exact (tickWith_lookup round64 random data e i token Hi)|].
  do 4 (split; [done|]).
  do 2 (split; [reflexivity|]).
  split; [exact Hfp|].
  split.
  { split.
    - eapply Qle_trans; [|exact Hfp1]. by vm_compute.
    - eapply Qle_trans; [exact Hfp2|]. by vm_compute. }
  split; [exact Hfv|].
  split.
  - eapply Qle_trans; [|exact Hfv1]. by vm_compute.
  - eapply Qle_trans; [exact Hfv2|]. by vm_compute.
Qed.
End TickBounds.

Lemma inRange64_sample : inRange64 3 /\ inRange64 100000.
Proof. split; right; split; by vm_compute. Qed.

Lemma tick64_bounded_factors_witness :
  let token := sampleToken "t0" NewPairs 3 in
  exists token' m v fp fv,
    (tick64 sampleRandom [token] emptyEnv).1 !! 0%nat = Some token' /\
    m = priceFactor64 (sampleRandom (0 + 2 * 0)%nat) /\
    v = volumeFactor64 (sampleRandom (0 + 2 * 0 + 1)%nat) /\
    (round64 0.99 <= m <= round64 1.01)%Q /\
    (round64 0.975 <= v <= round64 1.025)%Q /\
    Token.priceUSD token' = round64 (Token.priceUSD token * m) /\
    Token.volume24h token' = round64 (Token.volume24h token * v) /\
    (Token.priceUSD token' == Token.priceUSD token * fp)%Q /\
    (0.99 - ulp <= fp <= 1.01 + ulp)%Q /\
    (Token.volume24h token' == Token.volume24h token * fv)%Q /\
    (0.975 - ulp <= fv <= 1.025 + ulp)%Q.
Proof.
  intros token.
  apply (tick64_bounded_factors sampleRandom [token] emptyEnv 0 token).
  - reflexivity.
  - split; by vm_compute.
  - split; by vm_compute.
  - right. split; by vm_compute.
  - right. split; by vm_compute.
Defined.

(** The decimal interval fails at the draw 0. The multiplier the machine
    computes there is the double nearest to 0.99, which lies below 0.99: the
    price 3 becomes 2.9699999999999998 (the double written out as the
    fraction it is), less than 3 * 0.99, so that no factor in [0.99, 1.01]
    gives it. *)
Lemma tick64_factor_below :
  let token := sampleToken "t0" NewPairs 3 in
  exists token',
    (tick64 (fun _ => 0%Q) [token] emptyEnv).1 !! 0%nat = Some token' /\
    (priceFactor64 0 < 0.99)%Q /\
    (Token.priceUSD token' == 3343922723322593 # 1125899906842624)%Q /\
    (Token.priceUSD token' < Token.priceUSD token * 0.99)%Q /\
    (forall f, (0.99 <= f <= 1.01)%Q ->
               ~ (Token.priceUSD token' == Token.priceUSD token * f)%Q).
Proof.
  intros token.
  exists (perturbWith round64 token 0 0).
  split; [reflexivity|].
  assert (Hp : (Token.priceUSD (perturbWith round64 token 0 0)
                == 3343922723322593 # 1125899906842624)%Q)
    by (vm_compute; reflexivity).
  split; [by vm_compute|].
  split; [exact Hp|].
  split.
  - rewrite Hp. by vm_compute.
  - intros f [Hf _] Heq. rewrite Hp in Heq.
    change (Token.priceUSD token) with 3%Q in Heq. lra.
Qed.

(** The numbers of the machine at the ends of the range: the multiplier at
    the draw 0 is the double 0.98999999999999999, at the draw 1 the double
    1.01, and the volume 100000 at the draw 1 becomes 102499.99999999999,
    each written out as the fraction it is. *)
Example tick64_sample_values :
  (priceFactor64 0 == 4458563631096791 # 4503599627370496)%Q /\
  (priceFactor64 1 == 4548635623644201 # 4503599627370496)%Q /\
  (round64 (100000 * volumeFactor64 1) == 7043746365439999 # 68719476736)%Q.
Proof. repeat split; vm_compute; reflexivity. Qed.
